(** * find-path: grid generation, coordinate mapping and the movement lock

    A shallow embedding of [findpath.js].  The script has three parts:
    the class [SceneRenderer] (tile <-> screen coordinates, drawing), the
    class [GraphSearch] (random grid, options, the search call) and the
    top-level handlers [mouseMove], [mouseClick] and [makeScene] that share
    the globals [playerPos] and [playerMoving].

    Numbers.  JavaScript numbers are modelled by rationals ([Q]);
    quantities that the script only ever produces as integers (loop
    counters, results of [Math.floor], array lengths) are [Z] or [nat].
    The store, the handlers and the grid generation read [/] and [*]
    exactly.  Where the rounding of doubles decides an outcome (the floor
    of the quotient in [getTileByCoord], the floor of the product in the
    field test of [initialize]) the part [Binary64] gives the same
    computations with the rounding written out, and the properties that
    depend on it are stated there. *)

From Stdlib Require Import QArith Qround Qpower Lqa Floats Uint63.
From stdpp Require Import gmap strings list fin_maps.

Local Open Scope Z_scope.

(** ** Data *)

(** A tile [{x, y}]: [x] is the row and [y] the column of the grid. *)
Record Tile : Type := mkTile { tile_x : Z; tile_y : Z }.

(** A screen position [{x, y}] in pixels. *)
Record Point : Type := mkPoint { pos_x : Q; pos_y : Q }.

(** A node of the search graph: [new GridNode(x, y, weight)]. *)
Record GridNode : Type := mkNode { node_x : Z; node_y : Z; weight : Z }.

Abbreviation Grid := (list (list GridNode)).

(** The [{x, y}] view of a node: the handlers read only [.x] and [.y] of the
    entries of a path. *)
Definition node_tile (n : GridNode) : Tile := mkTile (node_x n) (node_y n).

(** [a[i]] for a number [i]: [undefined] outside [0 .. a.length-1]. *)
Definition js_index {A : Type} (a : list A) (i : Z) : option A :=
  if decide (0 <= i) then a !! Z.to_nat i else None.

(** ** SceneRenderer: coordinates *)

(** [var cellSize = 640/this.gridSize].  For an empty grid JavaScript has
    [Infinity] where [Q] has 0; [getTileByCoord] gives tile (0, 0) either
    way, and [getCoordByTile] is not reached on an empty grid ([searchPath]
    and [placePlayer] throw first). *)
Definition cellSize (gridSize : nat) : Q := 640 / inject_Z (Z.of_nat gridSize).

(** [getTileByCoord(position)]: the axes are swapped. *)
Definition getTileByCoord (gridSize : nat) (position : Point) : Tile :=
  {| tile_x := Qfloor (pos_y position / cellSize gridSize);
     tile_y := Qfloor (pos_x position / cellSize gridSize) |}.

(** [getCoordByTile(tile)]: the centre of the tile's cell, axes swapped. *)
Definition getCoordByTile (gridSize : nat) (tile : Tile) : Point :=
  {| pos_x := inject_Z (tile_y tile) * cellSize gridSize + cellSize gridSize / 2;
     pos_y := inject_Z (tile_x tile) * cellSize gridSize + cellSize gridSize / 2 |}.


(** ** The shared store

    [graphSearch], the renderer's [gridSize] and the globals [playerPos] and
    [playerMoving] are one mutable store.  What leaves the script (calls
    into PIXI and gsap, the call of the search implementation) is recorded
    in [log], in the order of the calls; [Math.random] reads the next entry
    of a fixed sequence of draws; [setTimeout] queues its delay. *)

(** [graphSearch.search]: the search implementation handed to the
    constructor.  It receives the grid and the two cells (either may be
    [undefined]) and returns a path, or throws ([None]). *)
Definition SearchFn : Type :=
  Grid -> option GridNode -> option GridNode -> option (list GridNode).

Inductive Event : Type :=
| TilemapClear
| PathLineClear
| TilemapTile (texture : string) (x y : Z)
| PlayerResize (gridSize : nat)
| PathLineSegment (a b : Point)
| PlayerPlace (coord : Point)
| GsapTo (duration : Z) (linePath : list Point)
| SearchCall (grid : Grid) (startCell endCell : option GridNode).

Record World : Type := mkWorld {
  opts : gmap string Q;        (* graphSearch.opts, by numeric value *)
  search : SearchFn;           (* graphSearch.search *)
  graph : option Grid;         (* graphSearch.graph.grid; None before initialize *)
  gridSize : nat;              (* sceneRenderer.gridSize, set by fillTileMap *)
  playerPos : option Tile;     (* undefined = None *)
  playerMoving : bool;
  timers : list Z;             (* pending [() => playerMoving = false] *)
  random : nat -> Q;           (* the draws of Math.random *)
  drawn : nat;                 (* how many draws were consumed *)
  log : list Event
}.

Definition set_opts (v : gmap string Q) (w : World) : World :=
  mkWorld v (search w) (graph w) (gridSize w) (playerPos w) (playerMoving w)
          (timers w) (random w) (drawn w) (log w).
Definition set_graph (v : option Grid) (w : World) : World :=
  mkWorld (opts w) (search w) v (gridSize w) (playerPos w) (playerMoving w)
          (timers w) (random w) (drawn w) (log w).
Definition set_gridSize (v : nat) (w : World) : World :=
  mkWorld (opts w) (search w) (graph w) v (playerPos w) (playerMoving w)
          (timers w) (random w) (drawn w) (log w).
Definition set_playerPos (v : option Tile) (w : World) : World :=
  mkWorld (opts w) (search w) (graph w) (gridSize w) v (playerMoving w)
          (timers w) (random w) (drawn w) (log w).
Definition set_playerMoving (v : bool) (w : World) : World :=
  mkWorld (opts w) (search w) (graph w) (gridSize w) (playerPos w) v
          (timers w) (random w) (drawn w) (log w).
Definition set_timers (v : list Z) (w : World) : World :=
  mkWorld (opts w) (search w) (graph w) (gridSize w) (playerPos w) (playerMoving w)
          v (random w) (drawn w) (log w).
Definition set_drawn (v : nat) (w : World) : World :=
  mkWorld (opts w) (search w) (graph w) (gridSize w) (playerPos w) (playerMoving w)
          (timers w) (random w) v (log w).
Definition set_log (v : list Event) (w : World) : World :=
  mkWorld (opts w) (search w) (graph w) (gridSize w) (playerPos w) (playerMoving w)
          (timers w) (random w) (drawn w) v.

(** A call either returns or throws (a [TypeError] from a property read on
    [undefined], or whatever the search implementation throws); the store
    keeps what was written before the throw. *)
Inductive Outcome (A : Type) : Type :=
| Returned (a : A)
| Thrown.
Arguments Returned {A} a.
Arguments Thrown {A}.

Definition Js (A : Type) : Type := World -> Outcome A * World.

#[export] Instance Js_ret : MRet Js := fun A a w => (Returned a, w).
#[export] Instance Js_bind : MBind Js := fun A B k m w =>
  match m w with
  | (Returned a, w') => k a w'
  | (Thrown, w') => (Thrown, w')
  end.

Definition throw {A : Type} : Js A := fun w => (Thrown, w).
Definition get {A : Type} (field : World -> A) : Js A := fun w => (Returned (field w), w).
Definition modify (f : World -> World) : Js unit := fun w => (Returned tt, f w).
Definition emit (e : Event) : Js unit := modify (fun w => set_log (log w ++ [e]) w).

(** Reading a property of a value that may be [undefined]. *)
Definition defined {A : Type} (v : option A) : Js A :=
  match v with Some a => mret a | None => throw end.

(** [for (...) body] over the successive values of the loop variable. *)
Fixpoint for_each {A : Type} (values : list A) (body : A -> Js unit) : Js unit :=
  match values with
  | [] => mret tt
  | a :: rest => body a;; for_each rest body
  end.

(** ** SceneRenderer: drawing *)

Definition resizeTilemap : Js unit :=
  gs ← get gridSize; emit (PlayerResize gs).

Definition fillTileMap (nodes : Grid) : Js unit :=
  emit TilemapClear;;
  emit PathLineClear;;
  modify (set_gridSize (length nodes));;
  for_each (seq 0 (length nodes)) (fun i =>
    for_each (seq 0 (length nodes)) (fun j =>
      row ← defined (nodes !! j);
      node ← defined (row !! i);
      emit (TilemapTile (if weight node =? 0 then "brick.png" else "grass.png")
                        (Z.of_nat i * 32) (Z.of_nat j * 32))));;
  resizeTilemap.

Definition drawPath (path : list Tile) : Js unit :=
  emit PathLineClear;;
  if (length path <? 2)%nat then mret tt
  else
    gs ← get gridSize;
    for_each (seq 1 (length path - 1)) (fun i =>
      t1 ← defined (path !! (i - 1)%nat);
      t2 ← defined (path !! i);
      emit (PathLineSegment (getCoordByTile gs t1) (getCoordByTile gs t2))).

Definition placePlayer (tile : option Tile) : Js unit :=
  gs ← get gridSize;
  t ← defined tile;
  emit (PlayerPlace (getCoordByTile gs t)).

Definition movePlayer (path : list Tile) : Js unit :=
  emit PathLineClear;;
  gs ← get gridSize;
  emit (GsapTo 1 (getCoordByTile gs <$> path)).

(** ** GraphSearch *)

(** [Math.floor(Math.random()*(1/wallFrequency))]. *)
Inductive Floored : Type := NaN | Infinity | Finite (z : Z).

Definition isField (wallFrequency : option Q) (r : Q) : Floored :=
  match wallFrequency with
  | None => NaN                                  (* 1/undefined *)
  | Some wf =>
      if Qeq_bool wf 0
      then (if Qeq_bool r 0 then NaN else Infinity)  (* r * (1/0) *)
      else Finite (Qfloor (r * (1 / wf)))
  end.

Definition truthy (v : Floored) : bool :=
  match v with
  | NaN => false
  | Infinity => true
  | Finite z => negb (z =? 0)
  end.

(** The number of rounds of [for (var x = 0; x < bound; x++)]. *)
Definition loop_rounds (bound : option Q) : nat :=
  match bound with
  | None => 0                                    (* x < undefined is false *)
  | Some q => Z.to_nat (Qceiling q)
  end.

(** The locals of [initialize] that outlive a row, with the position in the
    sequence of draws. *)
Record Scan : Type := mkScan {
  startSet : bool;
  firstEmpty : option Tile;
  consumed : nat
}.

(** One round of the inner loop, for column [y] of row [x]. *)
Definition cell_step (wallFrequency : option Q) (rnd : nat -> Q) (x : nat)
    (st : list Z * Scan) (y : nat) : list Z * Scan :=
  let (nodeRow, s) := st in
  if truthy (isField wallFrequency (rnd (consumed s)))
  then (nodeRow ++ [1],
        mkScan true
               (if startSet s then firstEmpty s
                else Some (mkTile (Z.of_nat x) (Z.of_nat y)))
               (S (consumed s)))
  else (nodeRow ++ [0], mkScan (startSet s) (firstEmpty s) (S (consumed s))).

(** One round of the outer loop, for row [x]. *)
Definition row_step (wallFrequency : option Q) (rnd : nat -> Q) (rounds : nat)
    (st : list (list Z) * Scan) (x : nat) : list (list Z) * Scan :=
  let (nodes, s) := st in
  let (nodeRow, s') := foldl (cell_step wallFrequency rnd x) ([], s) (seq 0 rounds) in
  (nodes ++ [nodeRow], s').

(** [new Graph(nodes)].grid: every weight wrapped in a node that knows its
    indices (the constructor of the astar library the page loads). *)
Definition Graph (nodes : list (list Z)) : Grid :=
  imap (fun x row => imap (fun y wgt => mkNode (Z.of_nat x) (Z.of_nat y) wgt) row) nodes.

Definition generate (o : gmap string Q) (rnd : nat -> Q) (start : nat)
    : list (list Z) * Scan :=
  let rounds := loop_rounds (o !! "gridSize") in
  foldl (row_step (o !! "wallFrequency") rnd rounds)
        ([], mkScan false None start) (seq 0 rounds).

Definition initialize : Js (option Tile) := fun w =>
  let (nodes, s) := generate (opts w) (random w) (drawn w) in
  (Returned (firstEmpty s), set_graph (Some (Graph nodes)) (set_drawn (consumed s) w)).

(** [Object.assign(target, ...sources)]: every own property of each source,
    in turn, is written to the target. *)
Definition assign_from {V : Type} (target source : gmap string V) : gmap string V :=
  map_fold (fun k v t => <[k:=v]> t) target source.

Definition Object_assign {V : Type} (target : gmap string V)
    (sources : list (gmap string V)) : gmap string V :=
  foldl assign_from target sources.

Definition setOption (opt : gmap string Q) : Js unit :=
  modify (fun w => set_opts (Object_assign ∅ [opts w; opt]) w).

Definition searchPath (start : option Tile) (end_ : Tile) : Js (list GridNode) :=
  g ← get graph;
  grid ← defined g;
  s ← defined start;
  startRow ← defined (js_index grid (tile_x s));
  endRow ← defined (js_index grid (tile_x end_));
  let startCell := js_index startRow (tile_y s) in
  let endCell := js_index endRow (tile_y end_) in
  impl ← get search;
  emit (SearchCall grid startCell endCell);;
  defined (impl grid startCell endCell).

(** ** The handlers *)

Definition setTimeout (delay : Z) : Js unit :=
  modify (fun w => set_timers (timers w ++ [delay]) w).

(** The oldest pending timer fires: [playerMoving = false]. *)
Definition timer_fires (w : World) : World :=
  match timers w with
  | [] => w
  | _ :: rest => set_playerMoving false (set_timers rest w)
  end.

Definition mouseMove (position : Point) : Js unit :=
  moving ← get playerMoving;
  if moving : bool then mret tt
  else
    gs ← get gridSize;
    let tile := getTileByCoord gs position in
    pos ← get playerPos;
    path ← searchPath pos tile;
    p ← defined pos;
    drawPath (p :: (node_tile <$> path)).

Definition mouseClick (position : Point) : Js unit :=
  moving ← get playerMoving;
  if moving : bool then mret tt
  else
    gs ← get gridSize;
    let tile := getTileByCoord gs position in
    pos ← get playerPos;
    path ← searchPath pos tile;
    if (length path =? 0)%nat then mret tt
    else
      p ← defined pos;
      let path' := p :: (node_tile <$> path) in
      movePlayer path';;
      modify (set_playerMoving true);;
      setTimeout 1000;;
      if negb (length path' =? 0)%nat
      then
        t ← defined (path' !! (length path' - 1)%nat);
        modify (set_playerPos (Some (mkTile (tile_x t) (tile_y t))))
      else mret tt.

Definition makeScene : Js unit :=
  first ← initialize;
  modify (set_playerPos first);;
  g ← get graph;
  grid ← defined g;
  fillTileMap grid;;
  pos ← get playerPos;
  placePlayer pos.

(** The three controls wired up by [initGame]. *)
Definition btnGenerate_onclick : Js unit := makeScene.

Definition selectWallFrequency_onchange (value : Q) : Js unit :=
  setOption {[ "wallFrequency" := value ]};; makeScene.

Definition selectGridSize_onchange (value : Q) : Js unit :=
  setOption {[ "gridSize" := value ]};; makeScene.

(** ** Notions used to state the properties *)

(** The weight [initialize] pushes for draw number [k]. *)
Definition cell_weight (wallFrequency : option Q) (rnd : nat -> Q) (k : nat) : Z :=
  if truthy (isField wallFrequency (rnd k)) then 1 else 0.

(** [nodes[x][y]], when both indices are in range. *)
Definition cell (nodes : list (list Z)) (x y : nat) : option Z :=
  row ← nodes !! x; row !! y.

(** Row-major order: [(x, y)] is scanned strictly before [(fx, fy)]. *)
Definition lex_before (x y fx fy : nat) : Prop :=
  (x < fx)%nat \/ (x = fx /\ (y < fy)%nat).

(** [r] is the first cell of weight 1 of [nodes] in row-major order, or
    [None] when every cell has weight 0. *)
Definition first_walkable (nodes : list (list Z)) (r : option Tile) : Prop :=
  match r with
  | None => forall x y c, cell nodes x y = Some c -> c = 0
  | Some t =>
      exists fx fy, t = mkTile (Z.of_nat fx) (Z.of_nat fy) /\
        cell nodes fx fy = Some 1 /\
        forall x y c, cell nodes x y = Some c -> lex_before x y fx fy -> c = 0
  end.

(** The invariant of both loops of [initialize]: [firstEmpty] is the first
    cell of weight 1 among the cells pushed so far (the other cells before
    it hold 0) and [startSet] tells whether there is one. *)
Record Scanned (nodes : list (list Z)) (s : Scan) : Prop := mkScanned {
  scanned_flag : startSet s = match firstEmpty s with Some _ => true | None => false end;
  scanned_first : first_walkable nodes (firstEmpty s)
}.

(** The weight of the node of [g] at tile [t]. *)
Definition grid_weight (g : Grid) (t : Tile) : option Z :=
  row ← js_index g (tile_x t); weight <$> js_index row (tile_y t).

(** [m] returns and does nothing but append [evs] to the log. *)
Definition emits (m : Js unit) (evs : list Event) : Prop :=
  forall w, m w = (Returned tt, set_log (log w ++ evs) w).

(** [m], returning or throwing, changes nothing but the log. *)
Definition logs_only {A : Type} (m : Js A) : Prop :=
  forall w, (m w).2 = set_log (log (m w).2) w.

(** A grid with [n] rows of [n] nodes each. *)
Definition square (n : nat) (g : Grid) : Prop :=
  length g = n /\ forall row, row ∈ g -> length row = n.

(** [first] is the start tile of the search grid [g]: when some tile has
    weight 1, [first] is such a tile and no tile of weight 1 comes before
    it in row-major order; when none has, [first] is [undefined]. *)
Definition first_walkable_tile (g : Grid) (first : option Tile) : Prop :=
  (forall t, grid_weight g t = Some 1 ->
     exists f, first = Some f /\ grid_weight g f = Some 1 /\
       (tile_x f < tile_x t \/ (tile_x f = tile_x t /\ tile_y f <= tile_y t))) /\
  ((forall t, grid_weight g t <> Some 1) -> first = None).

(** [g[t.x][t.y]]: the node of [g] at tile [t], when both reads succeed. *)
Definition grid_node (g : Grid) (t : Tile) : option GridNode :=
  row ← js_index g (tile_x t); js_index row (tile_y t).

(** The renderer and the search agree on the grid: the grid is square and
    its side is the renderer's [gridSize]. *)
Definition wired (w : World) : Prop :=
  exists g, graph w = Some g /\ square (gridSize w) g.

(** ** A concrete page, for examples

    A 3x3 grid at wall frequency 1/2; every third draw, starting with the
    second, is 3/4 (a field), the others are 1/4 (a wall).  The search
    implementation of the examples answers with the goal cell alone when it
    is a field and with the empty path otherwise. *)
Definition example_opts : gmap string Q :=
  {[ "gridSize" := 3%Q; "wallFrequency" := (1 # 2)%Q ]}.

Definition example_draws (k : nat) : Q :=
  if (k mod 3 =? 1)%nat then (3 # 4)%Q else (1 # 4)%Q.

Definition example_search : SearchFn := fun _ _ endCell =>
  Some (match endCell with
        | Some n => if weight n =? 0 then [] else [n]
        | None => []
        end).

Definition blank_world : World :=
  mkWorld example_opts example_search None 0 None false [] example_draws 0 [].

(** After [initGame]: the player stands on tile (0, 1). *)
Definition idle_world : World := (makeScene blank_world).2.

(** After a click on the field (1, 1): the lock is held. *)
Definition locked_world : World := (mouseClick (mkPoint 300 300) idle_world).2.

(** The segments of a path line: one from the centre of each tile of the
    path to the centre of the next. *)
Fixpoint path_segments (gridSize : nat) (path : list Tile) : list Event :=
  match path with
  | a :: (b :: _) as rest =>
      PathLineSegment (getCoordByTile gridSize a) (getCoordByTile gridSize b)
        :: path_segments gridSize rest
  | _ => []
  end.

(** [m] throws, having done nothing but append [evs] to the log. *)
Definition aborts (m : Js unit) (evs : list Event) : Prop :=
  forall w, m w = (Thrown, set_log (log w ++ evs) w).

(** The page of the examples with other options: no grid at all, and a wall
    frequency that leaves no field. *)
Definition empty_grid_world : World :=
  mkWorld {[ "gridSize" := 0%Q; "wallFrequency" := (1 # 2)%Q ]}
          example_search None 0 None false [] example_draws 0 [].

Definition all_walls_world : World :=
  mkWorld {[ "gridSize" := 3%Q; "wallFrequency" := 1%Q ]}
          example_search None 0 None false [] example_draws 0 [].

Definition fractional_size_world : World :=
  mkWorld {[ "gridSize" := (5 # 2)%Q; "wallFrequency" := (1 # 2)%Q ]}
          example_search None 0 None false [] example_draws 0 [].

(** ** The page as an event loop

    What [initGame] wires up: pointer moves and clicks on the tile map, the
    generate button, the two selects, and the timer of the host. Each event
    runs its handler to completion; a handler that throws leaves the store
    as it was at the throw. *)
Inductive Input : Type :=
| PointerMove (position : Point)
| PointerClick (position : Point)
| GenerateClick
| WallFrequencyChange (value : Q)
| GridSizeChange (value : Q)
| TimerElapsed.

Definition dispatch (i : Input) (w : World) : World :=
  match i with
  | PointerMove position => (mouseMove position w).2
  | PointerClick position => (mouseClick position w).2
  | GenerateClick => (btnGenerate_onclick w).2
  | WallFrequencyChange value => (selectWallFrequency_onchange value w).2
  | GridSizeChange value => (selectGridSize_onchange value w).2
  | TimerElapsed => timer_fires w
  end.

Definition play (inputs : list Input) (w : World) : World :=
  foldl (fun w i => dispatch i w) w inputs.

(** At most one timer is pending, and one is pending exactly while the lock
    is held. *)
Definition lock_discipline (w : World) : Prop :=
  timers w = if playerMoving w then [1000] else [].

(** Every node of [g] sits at the indices it records. *)
Definition indexed (g : Grid) : Prop :=
  forall t n, grid_node g t = Some n -> node_tile n = t.

(** A search implementation that, asked about two cells read from the grid
    it is given, answers with nodes of that grid. *)
Definition answers_with_grid_nodes (f : SearchFn) : Prop :=
  forall g s e p n,
    f g (grid_node g s) (grid_node g e) = Some p -> n ∈ p ->
    exists t, grid_node g t = Some n.

(** The renderer and the search agree on a square grid whose nodes know
    their indices, and [playerPos], when defined, is a tile of that grid. *)
Definition staged (w : World) : Prop :=
  exists g,
    graph w = Some g /\ square (gridSize w) g /\ indexed g /\
    forall pos, playerPos w = Some pos -> is_Some (grid_node g pos).

(** ** Binary64

    Where a rounding decides what the script does (the floor of a quotient
    in [getTileByCoord], the floor of a product in the field test), the
    exact reading above is not the script's: a JavaScript number is a
    double, and each [/] and [*] gives the double nearest to the exact
    result.  A double is kept here as the rational it denotes and the
    rounding is written out: 53 significant bits, to nearest, ties to even.
    The exponent is not bounded (no overflow to [Infinity], no
    subnormals); the statements made with it keep their quantities in the
    range where a double has its 53 bits. *)

(** The nearest integer, the even one on a tie. *)
Definition round_half_even (q : Q) : Z :=
  match (q - inject_Z (Qfloor q) ?= 1 # 2)%Q with
  | Lt => Qfloor q
  | Gt => Qfloor q + 1
  | Eq => if Z.even (Qfloor q) then Qfloor q else Qfloor q + 1
  end.

(** For [x > 0], the exponent [e] with [2^e <= x < 2^(e+1)]. *)
Definition binade (x : Q) : Z :=
  if Qle_bool (2 ^ (Z.log2 (Qnum x) - Z.log2 (Zpos (Qden x)))) x
  then Z.log2 (Qnum x) - Z.log2 (Zpos (Qden x))
  else Z.log2 (Qnum x) - Z.log2 (Zpos (Qden x)) - 1.

(** The double nearest to a positive [x]: its significand, scaled to an
    integer of 53 bits, is rounded. *)
Definition round64_pos (x : Q) : Q :=
  inject_Z (round_half_even (x * 2 ^ (52 - binade x))) * 2 ^ (binade x - 52).

Definition round64 (x : Q) : Q :=
  match Qnum x with
  | Z0 => 0
  | Zpos _ => round64_pos x
  | Zneg _ => - round64_pos (- x)
  end.

(** [x / y] and [x * y] on doubles. *)
Definition div64 (x y : Q) : Q := round64 (x / y).
Definition mul64 (x y : Q) : Q := round64 (x * y).

(** Half the spacing of doubles, relative to their size: 2^-53. *)
Definition unit_roundoff : Q := 1 # 9007199254740992.

(** [640/this.gridSize], [getTileByCoord] and the field test, as the
    script computes them. *)
Definition cellSize64 (gridSize : nat) : Q := div64 640 (inject_Z (Z.of_nat gridSize)).

Definition getTileByCoord64 (gridSize : nat) (position : Point) : Tile :=
  {| tile_x := Qfloor (div64 (pos_y position) (cellSize64 gridSize));
     tile_y := Qfloor (div64 (pos_x position) (cellSize64 gridSize)) |}.

Definition isField64 (wallFrequency : option Q) (r : Q) : Floored :=
  match wallFrequency with
  | None => NaN
  | Some wf =>
      if Qeq_bool wf 0
      then (if Qeq_bool r 0 then NaN else Infinity)
      else Finite (Qfloor (mul64 r (div64 1 wf)))
  end.

Definition cell_weight64 (wallFrequency : option Q) (rnd : nat -> Q) (k : nat) : Z :=
  if truthy (isField64 wallFrequency (rnd k)) then 1 else 0.

(** The set of draws that give a wall shrinks from [wf1] to [wf2]. *)
Definition walls_shrink64 (wf1 wf2 : Q) : Prop :=
  forall rnd k, cell_weight64 (Some wf2) rnd k = 0 -> cell_weight64 (Some wf1) rnd k = 0.


(** The double written 639.9999999999999: the last one below 640. *)
Definition just_below_640 : Q := 5629499534213119 # 8796093022208.

(** The value of a double of the kernel, when it is finite. *)
Definition double_value (f : float) : option Q :=
  match Prim2SF f with
  | S754_zero _ => Some 0%Q
  | S754_finite s m e => Some ((if s then -1 else 1) * inject_Z (Zpos m) * 2 ^ e)%Q
  | _ => None
  end.

(** The double [f] of the kernel denotes the rational [q]. *)
Definition denotes (f : float) (q : Q) : bool :=
  match double_value f with
  | Some v => Qeq_bool v q
  | None => false
  end.

(** A small integer as a double. *)
Definition double_of_nat (n : nat) : float := of_uint63 (of_Z (Z.of_nat n)).

(** * Properties *)

(** ** Coordinates *)

Lemma cellSize_pos (gridSize : nat) : (0 < gridSize)%nat -> (0 < cellSize gridSize)%Q.
Proof.
  intros Hg. unfold cellSize.
  apply Qlt_shift_div_l.
  - change 0%Q with (inject_Z 0). rewrite <- Zlt_Qlt. lia.
  - rewrite Qmult_0_l. reflexivity.
Qed.

Lemma centre_quotient (c : Q) (k : Z) :
  (0 < c)%Q -> ((inject_Z k * c + c / 2) / c == inject_Z k + (1 # 2))%Q.
Proof.
  intros Hc. field. intros E. rewrite E in Hc. exact (Qlt_irrefl _ Hc).
Qed.

Lemma Qfloor_half (k : Z) : Qfloor (inject_Z k + (1 # 2)) = k.
Proof.
  assert (Hlo : (k <= Qfloor (inject_Z k + (1 # 2)))%Z).
  { rewrite <- (Qfloor_Z k) at 1. apply Qfloor_resp_le.
    rewrite <- (Qplus_0_r (inject_Z k)) at 1.
    apply Qplus_le_r. discriminate. }
  assert (Hhi : (Qfloor (inject_Z k + (1 # 2)) < k + 1)%Z).
  { rewrite Zlt_Qlt. eapply Qle_lt_trans; [apply Qfloor_le|].
    rewrite inject_Z_plus. apply Qplus_lt_r. reflexivity. }
  lia.
Qed.

Lemma Qfloor_centre (gridSize : nat) (k : Z) :
  (0 < gridSize)%nat ->
  Qfloor ((inject_Z k * cellSize gridSize + cellSize gridSize / 2) / cellSize gridSize) = k.
Proof.
  intros Hg.
  rewrite (Qfloor_comp _ _ (centre_quotient _ k (cellSize_pos _ Hg))).
  apply Qfloor_half.
Qed.

Lemma cellSize_span (gridSize : nat) :
  (0 < gridSize)%nat -> (inject_Z (Z.of_nat gridSize) * cellSize gridSize == 640)%Q.
Proof.
  intros Hg. unfold cellSize. field.
  intros E. apply (Qlt_irrefl 0). rewrite <- E at 2.
  change 0%Q with (inject_Z 0). rewrite <- Zlt_Qlt. lia.
Qed.

(** C1.  On a grid of positive size, the centre of a tile's cell lies in
    that tile: mapping a tile to the screen and back gives the tile. *)
Theorem getTileByCoord_getCoordByTile (gridSize : nat) (t : Tile) :
  (0 < gridSize)%nat ->
  0 <= tile_x t < Z.of_nat gridSize ->
  0 <= tile_y t < Z.of_nat gridSize ->
  getTileByCoord gridSize (getCoordByTile gridSize t) = t.
Proof.
  intros Hg _ _. destruct t as [tx ty].
  unfold getTileByCoord, getCoordByTile; cbn [pos_x pos_y tile_x tile_y].
  f_equal; apply Qfloor_centre; exact Hg.
Qed.

Lemma getTileByCoord_getCoordByTile_witness :
  getTileByCoord 3 (getCoordByTile 3 (mkTile 2 1)) = mkTile 2 1.
Proof.
  apply (getTileByCoord_getCoordByTile 3 (mkTile 2 1)); cbn; lia.
Defined.

(** ** Options *)

Section ObjectAssign.
Context {V : Type}.
Implicit Types target source : gmap string V.

(** Writing the properties of [source] over [target] one by one gives the
    union that prefers [source]. *)
Lemma assign_from_union target source :
  assign_from target source = source ∪ target.
Proof.
  unfold assign_from.
  apply (map_fold_weak_ind (fun r (m : gmap string V) => r = m ∪ target)).
  - by rewrite (left_id_L ∅ (∪)).
  - intros k v m r _ ->. by rewrite insert_union_l.
Qed.

Lemma Object_assign_fresh target source :
  Object_assign ∅ [target; source] = source ∪ target.
Proof.
  unfold Object_assign; cbn [foldl].
  by rewrite !assign_from_union, (right_id_L ∅ (∪)).
Qed.

End ObjectAssign.

(** C9.  [setOption(u)] replaces the options by a merge: a key of [u] gets
    the value [u] gives it, every other key keeps what it had (present or
    absent); nothing else in the store changes. *)
Theorem setOption_merge (w : World) (u : gmap string Q) (k : string) :
  (forall v, u !! k = Some v -> opts (setOption u w).2 !! k = Some v) /\
  (u !! k = None -> opts (setOption u w).2 !! k = opts w !! k) /\
  setOption u w = (Returned tt, set_opts (opts (setOption u w).2) w).
Proof.
  unfold setOption, modify; cbn [snd opts set_opts].
  rewrite Object_assign_fresh. split_and!.
  - intros v Hv. by apply lookup_union_Some_l.
  - intros Hu. by apply lookup_union_r.
  - reflexivity.
Qed.

(** ** Grid generation *)

Lemma cell_weight_01 wf rnd k : cell_weight wf rnd k = 0 \/ cell_weight wf rnd k = 1.
Proof. unfold cell_weight. destruct (truthy _); auto. Qed.

Lemma cell_snoc (nodes : list (list Z)) (row : list Z) (c : Z) (x y : nat) (v : Z) :
  cell (nodes ++ [row ++ [c]]) x y = Some v <->
  cell (nodes ++ [row]) x y = Some v \/
  (x = length nodes /\ y = length row /\ v = c).
Proof.
  unfold cell.
  destruct (lt_eq_lt_dec x (length nodes)) as [[Hlt | ->] | Hgt].
  - rewrite !lookup_app_l by done. intuition lia.
  - rewrite !list_lookup_middle by done. cbn.
    rewrite lookup_snoc_Some. split.
    + intros [[_ H] | [-> ->]]; auto.
    + intros [H | (_ & -> & ->)]; [left|right; done].
      split; [|done]. by eapply lookup_lt_Some.
  - rewrite !lookup_ge_None_2 by (rewrite length_app; cbn; lia).
    cbn. intuition (try discriminate; lia).
Qed.

Lemma cell_new_row (nodes : list (list Z)) (x y : nat) :
  cell (nodes ++ [[]]) x y = cell nodes x y.
Proof.
  unfold cell. destruct (lt_eq_lt_dec x (length nodes)) as [[Hlt | ->] | Hgt].
  - by rewrite lookup_app_l.
  - rewrite list_lookup_middle by done.
    by rewrite (lookup_ge_None_2 nodes) by done.
  - by rewrite !lookup_ge_None_2 by (rewrite ?length_app; cbn; lia).
Qed.

Lemma cell_bounds (nodes : list (list Z)) (row : list Z) (x y : nat) (v : Z) :
  cell (nodes ++ [row]) x y = Some v ->
  (x < length nodes)%nat \/ (x = length nodes /\ (y < length row)%nat).
Proof.
  unfold cell. destruct (lt_eq_lt_dec x (length nodes)) as [[Hlt | ->] | Hgt]; auto.
  - rewrite list_lookup_middle by done. cbn. intros H. right.
    split; [done|]. by eapply lookup_lt_Some.
  - rewrite lookup_ge_None_2 by (rewrite length_app; cbn; lia). discriminate.
Qed.

Lemma Scanned_start (k : nat) : Scanned [] (mkScan false None k).
Proof. split; [done|]. intros x y c. unfold cell. by rewrite lookup_nil. Qed.

Lemma Scanned_new_row nodes s : Scanned nodes s -> Scanned (nodes ++ [[]]) s.
Proof.
  intros [Hf Hw]. split; [done|].
  unfold first_walkable in *. destruct (firstEmpty s) as [t|].
  - destruct Hw as (fx & fy & -> & H1 & Hb). exists fx, fy.
    rewrite cell_new_row. split_and!; [done..|].
    intros x y c. rewrite cell_new_row. apply Hb.
  - intros x y c. rewrite cell_new_row. apply Hw.
Qed.

Lemma Scanned_cell_step wf rnd nodes row s :
  Scanned (nodes ++ [row]) s ->
  Scanned (nodes ++ [(cell_step wf rnd (length nodes) (row, s) (length row)).1])
          (cell_step wf rnd (length nodes) (row, s) (length row)).2.
Proof.
  intros [Hf Hw]. unfold cell_step.
  destruct (truthy _); cbn [fst snd].
  - destruct (startSet s) eqn:Hs.
    + split; cbn [startSet firstEmpty].
      { destruct (firstEmpty s); done. }
      unfold first_walkable in *. destruct (firstEmpty s) as [t|]; [|done].
      destruct Hw as (fx & fy & -> & H1 & Hb). exists fx, fy.
      split_and!; [done|apply cell_snoc; by left|].
      intros x y c [Hold | (-> & -> & ->)]%cell_snoc Hlex; [by eapply Hb|].
      apply cell_bounds in H1. unfold lex_before in Hlex. lia.
    + split; cbn [startSet firstEmpty]; [done|].
      destruct (firstEmpty s) as [t|]; [done|]. cbn in Hw.
      exists (length nodes), (length row).
      split_and!; [done|apply cell_snoc; by right|].
      intros x y c [Hold | (-> & -> & ->)]%cell_snoc Hlex; [by eapply Hw|].
      unfold lex_before in Hlex. lia.
  - split; cbn [startSet firstEmpty]; [done|].
    unfold first_walkable in *. destruct (firstEmpty s) as [t|].
    + destruct Hw as (fx & fy & -> & H1 & Hb). exists fx, fy.
      split_and!; [done|apply cell_snoc; by left|].
      intros x y c [Hold | (-> & -> & ->)]%cell_snoc Hlex; [by eapply Hb|done].
    + intros x y c [Hold | (-> & -> & ->)]%cell_snoc; [by eapply Hw|done].
Qed.

Lemma cell_step_row wf rnd x row s y :
  (cell_step wf rnd x (row, s) y).1 = row ++ [cell_weight wf rnd (consumed s)].
Proof. unfold cell_step, cell_weight. by destruct (truthy _). Qed.

Lemma cell_step_consumed wf rnd x row s y :
  consumed (cell_step wf rnd x (row, s) y).2 = S (consumed s).
Proof. unfold cell_step. by destruct (truthy _). Qed.

(** The inner loop after [m] rounds. *)
Lemma cell_loop wf rnd (nodes : list (list Z)) (s0 : Scan) (m : nat) :
  Scanned (nodes ++ [[]]) s0 ->
  (foldl (cell_step wf rnd (length nodes)) ([], s0) (seq 0 m)).1
    = (fun y => cell_weight wf rnd (consumed s0 + y)) <$> seq 0 m /\
  consumed (foldl (cell_step wf rnd (length nodes)) ([], s0) (seq 0 m)).2
    = (consumed s0 + m)%nat /\
  Scanned (nodes ++ [(foldl (cell_step wf rnd (length nodes)) ([], s0) (seq 0 m)).1])
          (foldl (cell_step wf rnd (length nodes)) ([], s0) (seq 0 m)).2.
Proof.
  intros H0. induction m as [|m IH].
  - cbn. split_and!; [done|lia|done].
  - rewrite seq_S, foldl_snoc. cbn [Nat.add].
    destruct (foldl _ _ (seq 0 m)) as [row s]. cbn [fst snd] in IH.
    destruct IH as (Hrow & Hk & Hsc).
    assert (Hlen : length row = m) by (by rewrite Hrow, length_fmap, length_seq).
    split_and!.
    + rewrite cell_step_row, fmap_snoc, Hrow, Hk. done.
    + rewrite cell_step_consumed. lia.
    + clear Hrow Hk. subst m. by apply Scanned_cell_step.
Qed.

(** The outer loop after [n] rounds of [cols] columns each. *)
Lemma row_loop wf rnd (cols k0 n : nat) :
  (foldl (row_step wf rnd cols) ([], mkScan false None k0) (seq 0 n)).1
    = (fun x => (fun y => cell_weight wf rnd (k0 + x * cols + y)) <$> seq 0 cols)
        <$> seq 0 n /\
  consumed (foldl (row_step wf rnd cols) ([], mkScan false None k0) (seq 0 n)).2
    = (k0 + n * cols)%nat /\
  Scanned (foldl (row_step wf rnd cols) ([], mkScan false None k0) (seq 0 n)).1
          (foldl (row_step wf rnd cols) ([], mkScan false None k0) (seq 0 n)).2.
Proof.
  induction n as [|n IH].
  - cbn. split_and!; [done|lia|apply Scanned_start].
  - rewrite seq_S, foldl_snoc. cbn [Nat.add].
    destruct (foldl _ _ (seq 0 n)) as [nodes s]. cbn [fst snd] in IH.
    destruct IH as (Hnodes & Hk & Hsc).
    assert (Hlen : length nodes = n) by (by rewrite Hnodes, length_fmap, length_seq).
    unfold row_step.
    pose proof (cell_loop wf rnd nodes s cols (Scanned_new_row _ _ Hsc)) as (Hrow & Hk' & Hsc').
    rewrite Hlen in Hrow, Hk', Hsc'.
    destruct (foldl (cell_step _ _ _) _ _) as [row s']. cbn [fst snd] in *.
    split_and!.
    + rewrite fmap_snoc, Hnodes, Hrow, Hk. done.
    + lia.
    + done.
Qed.

(** What [generate] computes, for any options: a square grid whose side is
    the number of loop rounds, filled row by row from the draws. *)
Lemma generate_spec (o : gmap string Q) (rnd : nat -> Q) (k0 : nat) :
  (generate o rnd k0).1
    = (fun x => (fun y => cell_weight (o !! "wallFrequency") rnd
                            (k0 + x * loop_rounds (o !! "gridSize") + y))
                  <$> seq 0 (loop_rounds (o !! "gridSize")))
        <$> seq 0 (loop_rounds (o !! "gridSize")) /\
  consumed (generate o rnd k0).2
    = (k0 + loop_rounds (o !! "gridSize") * loop_rounds (o !! "gridSize"))%nat /\
  Scanned (generate o rnd k0).1 (generate o rnd k0).2.
Proof. apply row_loop. Qed.

(** [loop_rounds] counts the rounds of [for (x = 0; x < q; x++)]: the loop
    test holds exactly for the counters below it. *)
Lemma loop_rounds_test (q : Q) (x : nat) :
  (x < loop_rounds (Some q))%nat <-> (inject_Z (Z.of_nat x) < q)%Q.
Proof.
  unfold loop_rounds. split.
  - intros Hx. assert (Hz : (Z.of_nat x <= Qceiling q - 1)%Z) by lia.
    eapply Qle_lt_trans; [|apply Qceiling_lt]. by rewrite <- Zle_Qle.
  - intros Hx. assert (Hz : (Z.of_nat x < Qceiling q)%Z); [|lia].
    rewrite Zlt_Qlt. eapply Qlt_le_trans; [exact Hx|apply Qle_ceiling].
Qed.

Lemma loop_rounds_integer (n : Z) : loop_rounds (Some (inject_Z n)) = Z.to_nat n.
Proof. unfold loop_rounds. by rewrite Qceiling_Z. Qed.

Lemma initialize_unfold (w : World) :
  initialize w =
    (Returned (firstEmpty (generate (opts w) (random w) (drawn w)).2),
     set_graph (Some (Graph (generate (opts w) (random w) (drawn w)).1))
       (set_drawn (consumed (generate (opts w) (random w) (drawn w)).2) w)).
Proof. unfold initialize. by destruct (generate _ _ _). Qed.

Lemma Graph_lookup (nodes : list (list Z)) (x y : nat) :
  (row ← Graph nodes !! x; weight <$> row !! y) = cell nodes x y.
Proof.
  unfold Graph, cell. rewrite list_lookup_imap.
  destruct (nodes !! x) as [row|]; [|done]. cbn.
  rewrite list_lookup_imap. by destruct (row !! y).
Qed.

Lemma grid_weight_Graph (nodes : list (list Z)) (t : Tile) :
  grid_weight (Graph nodes) t =
    if decide (0 <= tile_x t /\ 0 <= tile_y t)
    then cell nodes (Z.to_nat (tile_x t)) (Z.to_nat (tile_y t))
    else None.
Proof.
  unfold grid_weight, js_index. rewrite <- Graph_lookup.
  destruct (decide (0 <= tile_x t)) as [Hx|Hx]; [|by rewrite decide_False by lia].
  destruct (Graph nodes !! Z.to_nat (tile_x t)) as [row|]; cbn.
  - destruct (decide (0 <= tile_y t)) as [Hy|Hy].
    + by rewrite decide_True by lia.
    + by rewrite decide_False by lia.
  - by destruct (decide _).
Qed.

Lemma generated_cell (o : gmap string Q) rnd k0 (x y : nat) :
  (x < loop_rounds (o !! "gridSize"))%nat ->
  (y < loop_rounds (o !! "gridSize"))%nat ->
  cell (generate o rnd k0).1 x y =
    Some (cell_weight (o !! "wallFrequency") rnd
            (k0 + x * loop_rounds (o !! "gridSize") + y)).
Proof.
  intros Hx Hy. destruct (generate_spec o rnd k0) as (-> & _ & _).
  unfold cell. rewrite list_lookup_fmap, lookup_seq_lt by done. cbn.
  by rewrite list_lookup_fmap, lookup_seq_lt by done.
Qed.

Lemma generated_shape (o : gmap string Q) rnd k0 :
  length (Graph (generate o rnd k0).1) = loop_rounds (o !! "gridSize") /\
  forall row, row ∈ Graph (generate o rnd k0).1 ->
    length row = loop_rounds (o !! "gridSize") /\
    forall c, c ∈ row -> weight c = 0 \/ weight c = 1.
Proof.
  destruct (generate_spec o rnd k0) as (-> & _ & _). unfold Graph. split.
  - by rewrite length_imap, length_fmap, length_seq.
  - intros row (x & Hrow)%list_elem_of_lookup.
    rewrite list_lookup_imap, list_lookup_fmap in Hrow.
    destruct (seq 0 _ !! x) as [x'|]; [|done]. cbn in Hrow.
    injection Hrow as <-. split.
    + by rewrite length_imap, length_fmap, length_seq.
    + intros c (y & Hc)%list_elem_of_lookup.
      rewrite list_lookup_imap, list_lookup_fmap in Hc.
      destruct (seq 0 _ !! y) as [y'|]; [|done]. cbn in Hc.
      injection Hc as <-. cbn. apply cell_weight_01.
Qed.

(** Cell [(x, y)] of the grid that [initialize] builds is decided by draw
    number [x * gridSize + y] after the draws already consumed. *)
Lemma initialize_cell_weight (w : World) (n : Z) (x y : nat) :
  opts w !! "gridSize" = Some (inject_Z n) ->
  (x < Z.to_nat n)%nat -> (y < Z.to_nat n)%nat ->
  exists g,
    graph (initialize w).2 = Some g /\
    grid_weight g (mkTile (Z.of_nat x) (Z.of_nat y)) =
      Some (cell_weight (opts w !! "wallFrequency") (random w)
              (drawn w + x * Z.to_nat n + y)).
Proof.
  intros Hn Hx Hy. rewrite initialize_unfold. cbn [snd graph set_graph].
  eexists. split; [reflexivity|].
  rewrite grid_weight_Graph; cbn [tile_x tile_y]. rewrite decide_True by lia.
  rewrite !Nat2Z.id, generated_cell by (by rewrite Hn, loop_rounds_integer).
  by rewrite Hn, loop_rounds_integer.
Qed.

(** The first-walkable result on the search grid: a returned tile has
    weight 1 and comes, in row-major order, no later than any tile of
    weight 1; [undefined] is returned only when no tile has weight 1. *)
Lemma generated_first (o : gmap string Q) rnd k0 :
  match firstEmpty (generate o rnd k0).2 with
  | Some f =>
      grid_weight (Graph (generate o rnd k0).1) f = Some 1 /\
      forall t, grid_weight (Graph (generate o rnd k0).1) t = Some 1 ->
        tile_x f < tile_x t \/ (tile_x f = tile_x t /\ tile_y f <= tile_y t)
  | None => forall t, grid_weight (Graph (generate o rnd k0).1) t <> Some 1
  end.
Proof.
  destruct (generate_spec o rnd k0) as (_ & _ & [_ Hw]).
  unfold first_walkable in Hw.
  destruct (firstEmpty _) as [f|].
  - destruct Hw as (fx & fy & -> & H1 & Hb). split.
    + rewrite grid_weight_Graph; cbn [tile_x tile_y].
      rewrite decide_True by lia. by rewrite !Nat2Z.id.
    + intros t. rewrite grid_weight_Graph; cbn [tile_x tile_y].
      destruct (decide _) as [[Hx Hy]|]; [|done]. intros Ht.
      destruct (decide (lex_before (Z.to_nat (tile_x t)) (Z.to_nat (tile_y t)) fx fy))
        as [Hlex|Hlex].
      * by specialize (Hb _ _ _ Ht Hlex).
      * unfold lex_before in Hlex. lia.
  - intros t. rewrite grid_weight_Graph.
    destruct (decide _); [|done]. intros Ht. by specialize (Hw _ _ _ Ht).
Qed.

(** ** Running the handlers *)

Lemma bind_run {A B : Type} (m : Js A) (k : A -> Js B) (w : World) :
  (m ≫= k) w = match m w with
               | (Returned a, w') => k a w'
               | (Thrown, w') => (Thrown, w')
               end.
Proof. reflexivity. Qed.

Lemma ret_run {A : Type} (a : A) (w : World) : (mret a : Js A) w = (Returned a, w).
Proof. reflexivity. Qed.

Lemma get_run {A : Type} (field : World -> A) (w : World) :
  get field w = (Returned (field w), w).
Proof. reflexivity. Qed.

Lemma modify_run (f : World -> World) (w : World) : modify f w = (Returned tt, f w).
Proof. reflexivity. Qed.

Lemma emit_run (e : Event) (w : World) :
  emit e w = (Returned tt, set_log (log w ++ [e]) w).
Proof. reflexivity. Qed.

Lemma defined_Some {A : Type} (a : A) (w : World) : defined (Some a) w = (Returned a, w).
Proof. reflexivity. Qed.

Lemma defined_None {A : Type} (w : World) : @defined A None w = (Thrown, w).
Proof. reflexivity. Qed.

(** Run the next statements of a handler on the store at hand. *)
Ltac run :=
  repeat (progress
    (rewrite ?bind_run, ?get_run, ?ret_run, ?modify_run, ?emit_run,
       ?defined_Some, ?defined_None in *;
     cbv beta iota in *)).

Lemma set_log_id (w : World) : set_log (log w) w = w.
Proof. by destruct w. Qed.

Lemma set_log_twice (l1 l2 : list Event) (w : World) :
  set_log l2 (set_log l1 w) = set_log l2 w.
Proof. reflexivity. Qed.

Lemma emits_ret : emits (mret tt) [].
Proof. intros w. unfold mret, Js_ret. by rewrite app_nil_r, set_log_id. Qed.

Lemma emits_emit (e : Event) : emits (emit e) [e].
Proof. by intros w. Qed.

Lemma emits_bind (m : Js unit) (k : Js unit) (e1 e2 : list Event) :
  emits m e1 -> emits k e2 -> emits (m;; k) (e1 ++ e2).
Proof.
  intros Hm Hk w. rewrite bind_run, Hm, Hk. cbn [log set_log].
  by rewrite set_log_twice, app_assoc.
Qed.

Lemma emits_for_each {A : Type} (values : list A) (body : A -> Js unit) :
  (forall a, a ∈ values -> exists evs, emits (body a) evs) ->
  exists evs, emits (for_each values body) evs.
Proof.
  induction values as [|a rest IH]; intros Hbody; cbn [for_each].
  - exists []. apply emits_ret.
  - destruct (Hbody a) as [e1 H1]; [by left|].
    destruct IH as [e2 H2]; [intros b Hb; apply Hbody; by right|].
    exists (e1 ++ e2). by apply emits_bind.
Qed.

Lemma logs_only_emits (m : Js unit) (evs : list Event) : emits m evs -> logs_only m.
Proof. intros Hm w. by rewrite Hm. Qed.

Lemma logs_only_bind {A B : Type} (m : Js A) (k : A -> Js B) :
  logs_only m -> (forall a, logs_only (k a)) -> logs_only (m ≫= k).
Proof.
  intros Hm Hk w. rewrite bind_run. specialize (Hm w).
  destruct (m w) as [[a|] w']; cbn [snd] in *; [|done].
  rewrite (Hk a w'). rewrite Hm at 2. reflexivity.
Qed.

Lemma logs_only_ret {A : Type} (a : A) : logs_only (mret a).
Proof. intros w. symmetry. apply set_log_id. Qed.

Lemma logs_only_throw {A : Type} : logs_only (@throw A).
Proof. intros w. symmetry. apply set_log_id. Qed.

Lemma logs_only_get {A : Type} (field : World -> A) : logs_only (get field).
Proof. intros w. symmetry. apply set_log_id. Qed.

Lemma logs_only_defined {A : Type} (v : option A) : logs_only (defined v).
Proof. destruct v; [apply logs_only_ret|apply logs_only_throw]. Qed.

Lemma logs_only_emit (e : Event) : logs_only (emit e).
Proof. by intros w. Qed.

Lemma logs_only_for_each {A : Type} (values : list A) (body : A -> Js unit) :
  (forall a, logs_only (body a)) -> logs_only (for_each values body).
Proof.
  intros Hbody. induction values as [|a rest IH]; cbn [for_each].
  - apply logs_only_ret.
  - apply logs_only_bind; [apply Hbody|intros _; apply IH].
Qed.

Create HintDb logs_only discriminated.
#[local] Hint Resolve logs_only_ret logs_only_throw logs_only_get logs_only_defined
  logs_only_emit : logs_only.

Ltac logs_only :=
  repeat first
    [ apply logs_only_bind; [|intros ?]
    | apply logs_only_for_each; intros ?
    | solve [auto with logs_only]
    | match goal with |- logs_only (if ?b then _ else _) => destruct b end ].

Lemma logs_only_searchPath start end_ : logs_only (searchPath start end_).
Proof. unfold searchPath. logs_only. Qed.

Lemma logs_only_drawPath path : logs_only (drawPath path).
Proof. unfold drawPath. logs_only. Qed.

Lemma logs_only_movePlayer path : logs_only (movePlayer path).
Proof. unfold movePlayer. logs_only. Qed.

Lemma logs_only_placePlayer tile : logs_only (placePlayer tile).
Proof. unfold placePlayer. logs_only. Qed.

(** When [searchPath] returns, both row reads succeeded, the search
    implementation was called once and returned the path, and nothing but
    that call was recorded. *)
Lemma searchPath_returned (start : option Tile) (end_ : Tile) (w : World)
    (p : list GridNode) :
  (searchPath start end_ w).1 = Returned p ->
  exists grid s startRow endRow,
    graph w = Some grid /\ start = Some s /\
    js_index grid (tile_x s) = Some startRow /\
    js_index grid (tile_x end_) = Some endRow /\
    search w grid (js_index startRow (tile_y s)) (js_index endRow (tile_y end_)) = Some p /\
    searchPath start end_ w =
      (Returned p,
       set_log (log w ++ [SearchCall grid (js_index startRow (tile_y s))
                                          (js_index endRow (tile_y end_))]) w).
Proof.
  unfold searchPath. intros H. run.
  destruct (graph w) as [grid|] eqn:Hg; run; [|discriminate].
  destruct start as [s|]; run; [|discriminate].
  destruct (js_index grid (tile_x s)) as [startRow|] eqn:Hs; run; [|discriminate].
  destruct (js_index grid (tile_x end_)) as [endRow|] eqn:He; run; [|discriminate].
  cbn [search set_log] in *.
  destruct (search w grid _ _) as [p'|] eqn:Hp; run; [|discriminate].
  cbn [fst] in H. injection H as ->.
  exists grid, s, startRow, endRow. done.
Qed.

(** ** The tile a committed path ends on *)

Lemma last_of_path (s : Tile) (p : list GridNode) (goal : GridNode) :
  last p = Some goal ->
  (s :: (node_tile <$> p)) !! (length (s :: (node_tile <$> p)) - 1)%nat
    = Some (node_tile goal).
Proof.
  intros Hlast. destruct p as [|n p']; [done|].
  rewrite last_lookup in Hlast. cbn [length Nat.pred] in *.
  rewrite Nat.sub_succ, Nat.sub_0_r, length_fmap. cbn [length].
  change (s :: (node_tile <$> n :: p')) with ([s] ++ (node_tile <$> n :: p')).
  rewrite lookup_app_r by (cbn; lia). cbn [length].
  rewrite Nat.sub_succ, Nat.sub_0_r, list_lookup_fmap.
  by rewrite Hlast.
Qed.

(** ** Regeneration *)

Lemma fillTileMap_square (n : nat) (g : Grid) :
  square n g ->
  exists evs, forall w,
    fillTileMap g w = (Returned tt, set_log (log w ++ evs) (set_gridSize n w)).
Proof.
  intros [Hlen Hrows].
  assert (Htiles : exists evs, emits
    (for_each (seq 0 (length g)) (fun i =>
       for_each (seq 0 (length g)) (fun j =>
         row ← defined (g !! j);
         node ← defined (row !! i);
         emit (TilemapTile (if weight node =? 0 then "brick.png" else "grass.png")
                           (Z.of_nat i * 32) (Z.of_nat j * 32))))) evs).
  { apply emits_for_each. intros i [_ Hi]%elem_of_seq.
    apply emits_for_each. intros j [_ Hj]%elem_of_seq.
    destruct (lookup_lt_is_Some_2 g j) as [row Hrow]; [lia|].
    assert (Hr : length row = n) by (apply Hrows; by eapply list_elem_of_lookup_2).
    destruct (lookup_lt_is_Some_2 row i) as [node Hnode]; [lia|].
    eexists. intros w. rewrite Hrow. run. rewrite Hnode. run. reflexivity. }
  destruct Htiles as [tiles Htiles].
  exists ([TilemapClear; PathLineClear] ++ tiles ++ [PlayerResize n]).
  intros w. unfold fillTileMap, resizeTilemap. run. rewrite Htiles. run.
  cbn [log set_log gridSize set_gridSize]. rewrite Hlen.
  rewrite <- !app_assoc. reflexivity.
Qed.

Lemma generated_square (o : gmap string Q) rnd k0 :
  square (loop_rounds (o !! "gridSize")) (Graph (generate o rnd k0).1).
Proof.
  destruct (generated_shape o rnd k0) as [Hlen Hrows].
  split; [done|]. intros row Hrow. by apply Hrows.
Qed.

(** [makeScene] on any store: the grid is regenerated, [playerPos] is the
    first-walkable result, the renderer learns the new size, and the call
    throws (in [placePlayer]) exactly when that result is [undefined].
    The lock and the timers are not touched. *)
Lemma makeScene_run (w : World) :
  exists evs,
    makeScene w =
      (match firstEmpty (generate (opts w) (random w) (drawn w)).2 with
       | Some _ => Returned tt
       | None => Thrown
       end,
       set_log (log w ++ evs)
         (set_gridSize (loop_rounds (opts w !! "gridSize"))
            (set_playerPos (firstEmpty (generate (opts w) (random w) (drawn w)).2)
               (set_graph (Some (Graph (generate (opts w) (random w) (drawn w)).1))
                  (set_drawn (consumed (generate (opts w) (random w) (drawn w)).2) w))))).
Proof.
  destruct (fillTileMap_square _ _ (generated_square (opts w) (random w) (drawn w)))
    as [tiles Htiles].
  unfold makeScene. rewrite bind_run, initialize_unfold. run.
  cbn [graph set_graph set_playerPos]. run. rewrite Htiles. run.
  unfold placePlayer. run. cbn [playerPos set_log set_gridSize set_playerPos].
  destruct (firstEmpty _) as [f|]; run.
  - eexists. cbn [log set_log set_gridSize]. rewrite <- app_assoc. reflexivity.
  - by exists tiles.
Qed.

Lemma generated_first_walkable_tile (o : gmap string Q) rnd k0 :
  first_walkable_tile (Graph (generate o rnd k0).1) (firstEmpty (generate o rnd k0).2).
Proof.
  pose proof (generated_first o rnd k0) as H.
  destruct (firstEmpty _) as [f|]; split.
  - intros t Ht. exists f. destruct H as [H1 H2]. split_and!; [done..|by apply H2].
  - intros Hno. destruct H as [H1 _]. by destruct (Hno f).
  - intros t Ht. by destruct (H t).
  - done.
Qed.

(** ** Walls and draws *)

Lemma isField_positive (wf r : Q) :
  (0 < wf)%Q -> isField (Some wf) r = Finite (Qfloor (r * (1 / wf))).
Proof.
  intros Hwf. unfold isField.
  destruct (Qeq_bool wf 0) eqn:E; [|done].
  apply Qeq_bool_iff in E. rewrite E in Hwf. by apply Qlt_irrefl in Hwf.
Qed.

Lemma scaled_draw_below_one (wf r : Q) :
  (0 < wf)%Q -> ((r * (1 / wf) < 1)%Q <-> (r < wf)%Q).
Proof.
  intros Hwf.
  assert (Hne : ~ (wf == 0)%Q) by (intros E; rewrite E in Hwf; by apply Qlt_irrefl in Hwf).
  assert (Heq : (r * (1 / wf) * wf == r)%Q) by (field; exact Hne).
  rewrite <- (Qmult_lt_r _ _ wf Hwf), Heq, Qmult_1_l. done.
Qed.

Lemma floor_zero_iff (wf r : Q) :
  (0 < wf)%Q -> (0 <= r)%Q -> Qfloor (r * (1 / wf)) = 0 <-> (r < wf)%Q.
Proof.
  intros Hwf Hr. rewrite <- (scaled_draw_below_one wf r Hwf). split.
  - intros Hz. pose proof (Qlt_floor (r * (1 / wf))) as H. by rewrite Hz in H.
  - intros Hlt.
    assert (H0 : (0 <= r * (1 / wf))%Q).
    { apply Qmult_le_0_compat; [done|]. apply Qlt_le_weak.
      unfold Qdiv. rewrite Qmult_1_l. by apply Qinv_lt_0_compat. }
    assert (Hlo : 0 <= Qfloor (r * (1 / wf))).
    { change 0 with (Qfloor 0). by apply Qfloor_resp_le. }
    assert (Hhi : Qfloor (r * (1 / wf)) < 1).
    { rewrite Zlt_Qlt. eapply Qle_lt_trans; [apply Qfloor_le|done]. }
    lia.
Qed.

Lemma wall_iff (wf : Q) (rnd : nat -> Q) (k : nat) :
  (0 < wf)%Q -> (0 <= rnd k)%Q ->
  cell_weight (Some wf) rnd k = 0 <-> (rnd k < wf)%Q.
Proof.
  intros Hwf Hr. rewrite <- (floor_zero_iff wf (rnd k) Hwf Hr).
  unfold cell_weight. rewrite (isField_positive _ _ Hwf). cbn [truthy].
  destruct (Z.eqb_spec (Qfloor (rnd k * (1 / wf))) 0) as [E|E]; cbn [negb]; split; try done.
Qed.

(** ** Indexing the grid *)

Lemma js_index_in_range {A : Type} (a : list A) (i : Z) :
  0 <= i < Z.of_nat (length a) -> is_Some (js_index a i).
Proof.
  intros Hi. unfold js_index. rewrite decide_True by lia.
  apply lookup_lt_is_Some_2. lia.
Qed.

Lemma grid_node_in_range (n : nat) (g : Grid) (t : Tile) :
  square n g ->
  0 <= tile_x t < Z.of_nat n -> 0 <= tile_y t < Z.of_nat n ->
  exists row node,
    js_index g (tile_x t) = Some row /\ js_index row (tile_y t) = Some node /\
    grid_node g t = Some node.
Proof.
  intros [Hlen Hrows] Hx Hy. unfold grid_node.
  destruct (js_index_in_range g (tile_x t)) as [row Hrow]; [lia|].
  assert (Hr : length row = n).
  { apply Hrows. unfold js_index in Hrow. destruct (decide _); [|done].
    by eapply list_elem_of_lookup_2. }
  destruct (js_index_in_range row (tile_y t)) as [node Hnode]; [lia|].
  exists row, node. by rewrite Hrow.
Qed.

Lemma drawPath_returns (path : list Tile) (w : World) :
  exists evs, drawPath path w = (Returned tt, set_log (log w ++ evs) w).
Proof.
  unfold drawPath. run. destruct (length path <? 2)%nat eqn:E; run.
  - by eexists.
  - cbn [gridSize set_log].
    destruct (emits_for_each (seq 1 (length path - 1)) (fun i =>
      t1 ← defined (path !! (i - 1)%nat);
      t2 ← defined (path !! i);
      emit (PathLineSegment (getCoordByTile (gridSize w) t1)
                            (getCoordByTile (gridSize w) t2)))) as [evs Hevs].
    { intros i [Hi1 Hi2]%elem_of_seq.
      destruct (lookup_lt_is_Some_2 path (i - 1)) as [t1 H1]; [lia|].
      destruct (lookup_lt_is_Some_2 path i) as [t2 H2]; [lia|].
      eexists. intros w'. rewrite H1. run. rewrite H2. run. reflexivity. }
    rewrite Hevs. cbn [log set_log]. rewrite <- app_assoc. by eexists.
Qed.

(** ** The renderer and the search stay in step *)

Lemma logs_only_mouseMove position : logs_only (mouseMove position).
Proof.
  unfold mouseMove. logs_only.
Qed.

(** What [mouseClick] leaves alone, and when it can throw: only when its
    call of [searchPath] throws. *)
Lemma mouseClick_frame (w : World) (position : Point) :
  graph (mouseClick position w).2 = graph w /\
  gridSize (mouseClick position w).2 = gridSize w /\
  opts (mouseClick position w).2 = opts w /\
  ((mouseClick position w).1 = Thrown ->
     (searchPath (playerPos w) (getTileByCoord (gridSize w) position) w).1 = Thrown).
Proof.
  unfold mouseClick. run. destruct (playerMoving w); run; [done|].
  pose proof (logs_only_searchPath (playerPos w)
    (getTileByCoord (gridSize w) position) w) as Hw1.
  destruct (searchPath (playerPos w) (getTileByCoord (gridSize w) position) w)
    as [[p|] w1] eqn:Hs; cbn [fst snd] in *; [|by rewrite Hw1].
  assert (Hp : (searchPath (playerPos w) (getTileByCoord (gridSize w) position) w).1
               = Returned p) by (by rewrite Hs).
  apply searchPath_returned in Hp as (_ & s & _ & _ & _ & Hpos & _).
  destruct (length p =? 0)%nat; run; [by rewrite Hw1|].
  rewrite Hpos. run. unfold movePlayer, setTimeout. run.
  destruct (lookup_lt_is_Some_2 (s :: (node_tile <$> p))
              (length (s :: (node_tile <$> p)) - 1)) as [t Ht]; [cbn; lia|].
  rewrite Ht. cbn [negb length Nat.eqb]. run. by rewrite Hw1.
Qed.

(** [mouseMove] can throw only when its call of [searchPath] throws. *)
Lemma mouseMove_outcome (w : World) (position : Point) :
  (mouseMove position w).1 = Thrown ->
  (searchPath (playerPos w) (getTileByCoord (gridSize w) position) w).1 = Thrown.
Proof.
  unfold mouseMove. run. destruct (playerMoving w); run; [done|].
  destruct (searchPath (playerPos w) (getTileByCoord (gridSize w) position) w)
    as [[p|] w1] eqn:Hs; cbn [fst snd] in *; [|done].
  assert (Hp : (searchPath (playerPos w) (getTileByCoord (gridSize w) position) w).1
               = Returned p) by (by rewrite Hs).
  apply searchPath_returned in Hp as (_ & s & _ & _ & _ & Hpos & _).
  rewrite Hpos. run.
  by destruct (drawPath_returns (s :: (node_tile <$> p)) w1) as [evs ->].
Qed.

Lemma makeScene_wired (w : World) : wired (makeScene w).2.
Proof.
  destruct (makeScene_run w) as [evs ->]. eexists. split; [reflexivity|].
  apply generated_square.
Qed.

Lemma mouseMove_wired (w : World) position : wired w -> wired (mouseMove position w).2.
Proof. rewrite (logs_only_mouseMove position w). by intros (g & Hg & Hsq); exists g. Qed.

Lemma mouseClick_wired (w : World) position : wired w -> wired (mouseClick position w).2.
Proof.
  destruct (mouseClick_frame w position) as (Hg & Hn & _ & _).
  intros (g & Hgw & Hsq). exists g. by rewrite Hg, Hn.
Qed.

Lemma timer_fires_wired (w : World) : wired w -> wired (timer_fires w).
Proof. unfold timer_fires. by destruct (timers w). Qed.

(** ** Theorems for the claims *)

(** C2, as the code has it.  [makeScene] called while the lock is held
    leaves the lock held and the pending timers pending; the grid is new,
    square, of the configured size, known to the renderer, and [playerPos]
    is its first-walkable result; the call returns exactly when there is
    such a tile.  The lock is released only when the timer fires. *)
Theorem makeScene_keeps_lock (w : World) (n : Z) :
  playerMoving w = true ->
  opts w !! "gridSize" = Some (inject_Z n) ->
  0 <= n ->
  exists g,
    playerMoving (makeScene w).2 = true /\
    timers (makeScene w).2 = timers w /\
    graph (makeScene w).2 = Some g /\
    square (Z.to_nat n) g /\
    gridSize (makeScene w).2 = Z.to_nat n /\
    first_walkable_tile g (playerPos (makeScene w).2) /\
    ((makeScene w).1 = Returned tt <-> is_Some (playerPos (makeScene w).2)) /\
    (timers w <> [] -> playerMoving (timer_fires (makeScene w).2) = false).
Proof.
  intros Hm Hn Hpos. destruct (makeScene_run w) as [evs ->].
  cbn [fst snd playerMoving timers graph gridSize playerPos
       set_log set_gridSize set_playerPos set_graph set_drawn].
  rewrite Hn, loop_rounds_integer.
  exists (Graph (generate (opts w) (random w) (drawn w)).1).
  split_and!; try done.
  - pose proof (generated_square (opts w) (random w) (drawn w)) as Hsq.
    by rewrite Hn, loop_rounds_integer in Hsq.
  - apply generated_first_walkable_tile.
  - destruct (firstEmpty _); split; try done; by intros [? ?].
  - intros Ht. unfold timer_fires. cbn [timers set_log set_gridSize set_playerPos
      set_graph set_drawn]. by destruct (timers w).
Qed.

Lemma makeScene_keeps_lock_witness :
  exists g,
    playerMoving (makeScene locked_world).2 = true /\
    timers (makeScene locked_world).2 = timers locked_world /\
    graph (makeScene locked_world).2 = Some g /\
    square (Z.to_nat 3) g /\
    gridSize (makeScene locked_world).2 = Z.to_nat 3 /\
    first_walkable_tile g (playerPos (makeScene locked_world).2) /\
    ((makeScene locked_world).1 = Returned tt <->
       is_Some (playerPos (makeScene locked_world).2)) /\
    (timers locked_world <> [] ->
       playerMoving (timer_fires (makeScene locked_world).2) = false).
Proof.
  apply (makeScene_keeps_lock locked_world 3); [reflexivity|reflexivity|lia].
Defined.

(** C2, as specified, fails: regenerating the 3x3 example, or
    switching it to size 8, while the lock is held returns with the lock
    still held. *)
Lemma makeScene_keeps_lock_counterexample :
  playerMoving locked_world = true /\
  (makeScene locked_world).1 = Returned tt /\
  playerMoving (makeScene locked_world).2 = true /\
  (selectGridSize_onchange 8 locked_world).1 = Returned tt /\
  gridSize (selectGridSize_onchange 8 locked_world).2 = 8%nat /\
  playerMoving (selectGridSize_onchange 8 locked_world).2 = true.
Proof. vm_compute. done. Qed.

(** C3.  While [playerMoving] holds, [mouseMove] and [mouseClick] return
    at once: the store, with its record of search, render and animation
    calls, is the one they were given. *)
Theorem locked_handlers_ignore (w : World) (position : Point) :
  playerMoving w = true ->
  mouseMove position w = (Returned tt, w) /\
  mouseClick position w = (Returned tt, w).
Proof.
  intros Hm. unfold mouseMove, mouseClick. run. by rewrite Hm.
Qed.

Lemma locked_handlers_ignore_witness :
  playerMoving locked_world = true /\
  mouseMove (mkPoint 500 100) locked_world = (Returned tt, locked_world) /\
  mouseClick (mkPoint 500 100) locked_world = (Returned tt, locked_world).
Proof.
  split; [reflexivity|].
  apply (locked_handlers_ignore locked_world (mkPoint 500 100)). reflexivity.
Defined.

(** C4.  In the idle state, a click whose search returns a non-empty path
    [p] returns after: handing the animation the screen points of the
    player's tile followed by [p]; taking the lock; queueing one timer of
    1000 ms, whose firing releases the lock; and moving [playerPos] to the
    last tile of [p]. *)
Theorem mouseClick_commits (w : World) (position : Point) (p : list GridNode) :
  playerMoving w = false ->
  (searchPath (playerPos w) (getTileByCoord (gridSize w) position) w).1 = Returned p ->
  p <> [] ->
  exists pos goal grid startCell endCell,
    playerPos w = Some pos /\
    last p = Some goal /\
    mouseClick position w =
      (Returned tt,
       set_playerPos (Some (node_tile goal))
         (set_timers (timers w ++ [1000])
            (set_playerMoving true
               (set_log (log w ++ [SearchCall grid startCell endCell;
                                   PathLineClear;
                                   GsapTo 1 (getCoordByTile (gridSize w)
                                               <$> pos :: (node_tile <$> p))])
                  w)))) /\
    playerMoving (timer_fires (mouseClick position w).2) = false.
Proof.
  intros Hm Hp Hne.
  apply searchPath_returned in Hp as (grid & s & srow & erow & _ & Hpos & _ & _ & _ & Hrun).
  destruct (last p) as [goal|] eqn:Hlast; [|by apply last_None in Hlast].
  exists s, goal, grid, (js_index srow (tile_y s)),
    (js_index erow (tile_y (getTileByCoord (gridSize w) position))).
  split; [done|]. split; [done|].
  pose proof (last_of_path s p goal Hlast) as Hl.
  match goal with |- ?run = ?res /\ _ => assert (Hrun' : run = res) end.
  { unfold mouseClick. run. rewrite Hm. run. rewrite Hrun.
    destruct (Nat.eqb_spec (length p) 0) as [Hz|_]; [by apply nil_length_inv in Hz|].
    rewrite Hpos. run. unfold movePlayer, setTimeout. run.
    rewrite Hl. cbn [negb length Nat.eqb]. run.
    cbn [gridSize set_log log timers set_timers set_playerMoving].
    rewrite <- !app_assoc. reflexivity. }
  split; [exact Hrun'|].
  rewrite Hrun'. cbn [snd]. unfold timer_fires. cbn [timers set_playerPos set_timers].
  destruct (timers w ++ [1000]) eqn:Ht; [by destruct (timers w)|done].
Qed.

Lemma mouseClick_commits_witness :
  exists pos goal grid startCell endCell,
    playerPos idle_world = Some pos /\
    last [mkNode 1 1 1] = Some goal /\
    mouseClick (mkPoint 300 300) idle_world =
      (Returned tt,
       set_playerPos (Some (node_tile goal))
         (set_timers (timers idle_world ++ [1000])
            (set_playerMoving true
               (set_log (log idle_world ++ [SearchCall grid startCell endCell;
                                   PathLineClear;
                                   GsapTo 1 (getCoordByTile (gridSize idle_world)
                                               <$> pos :: (node_tile <$> [mkNode 1 1 1]))])
                  idle_world)))) /\
    playerMoving (timer_fires (mouseClick (mkPoint 300 300) idle_world).2) = false.
Proof.
  apply (mouseClick_commits idle_world (mkPoint 300 300) [mkNode 1 1 1]);
    [reflexivity | vm_compute; reflexivity | discriminate].
Defined.

(** C5.  In the idle state, a click whose search returns the empty path
    returns without moving: the search call is the only thing recorded;
    the position, the lock, the timers and the grid are as before and no
    animation is started. *)
Theorem mouseClick_empty_path (w : World) (position : Point) :
  playerMoving w = false ->
  (searchPath (playerPos w) (getTileByCoord (gridSize w) position) w).1 = Returned [] ->
  exists grid startCell endCell,
    mouseClick position w =
      (Returned tt, set_log (log w ++ [SearchCall grid startCell endCell]) w).
Proof.
  intros Hm Hp.
  apply searchPath_returned in Hp as (grid & s & srow & erow & _ & _ & _ & _ & _ & Hrun).
  exists grid, (js_index srow (tile_y s)),
    (js_index erow (tile_y (getTileByCoord (gridSize w) position))).
  unfold mouseClick. run. rewrite Hm. run. rewrite Hrun. reflexivity.
Qed.

Lemma mouseClick_empty_path_witness :
  exists grid startCell endCell,
    mouseClick (mkPoint 500 500) idle_world =
      (Returned tt, set_log (log idle_world ++ [SearchCall grid startCell endCell]) idle_world).
Proof.
  apply (mouseClick_empty_path idle_world (mkPoint 500 500));
    [reflexivity | vm_compute; reflexivity].
Defined.

(** C6.  With an integer [gridSize] of at least 0 and a positive
    [wallFrequency], whatever the store and the draws, the grid that
    [initialize] builds, which is the grid [makeScene] leaves, has
    [gridSize] rows of [gridSize] nodes, each of weight 0 or 1. *)
Theorem generated_grid_shape (w : World) (n : Z) (wf : Q) :
  opts w !! "gridSize" = Some (inject_Z n) ->
  0 <= n ->
  opts w !! "wallFrequency" = Some wf ->
  (0 < wf)%Q ->
  exists g,
    graph (initialize w).2 = Some g /\
    graph (makeScene w).2 = Some g /\
    length g = Z.to_nat n /\
    forall row, row ∈ g ->
      length row = Z.to_nat n /\
      forall c, c ∈ row -> weight c = 0 \/ weight c = 1.
Proof.
  intros Hn Hpos _ _. destruct (makeScene_run w) as [evs ->].
  rewrite initialize_unfold. cbn [snd graph set_log set_gridSize set_playerPos set_graph].
  eexists. split; [reflexivity|]. split; [reflexivity|].
  pose proof (generated_shape (opts w) (random w) (drawn w)) as Hshape.
  by rewrite Hn, loop_rounds_integer in Hshape.
Qed.

Lemma generated_grid_shape_witness :
  exists g,
    graph (initialize blank_world).2 = Some g /\
    graph (makeScene blank_world).2 = Some g /\
    length g = Z.to_nat 3 /\
    forall row, row ∈ g ->
      length row = Z.to_nat 3 /\
      forall c, c ∈ row -> weight c = 0 \/ weight c = 1.
Proof.
  apply (generated_grid_shape blank_world 3 (1 # 2)); [reflexivity|lia|reflexivity|reflexivity].
Defined.

(** C8.  [initialize] returns, with the grid built, the first tile of
    weight 1 in row-major order when the grid has a tile of weight 1, and
    [undefined] when it has none; [makeScene] makes it [playerPos]. *)
Theorem initialize_first_walkable (w : World) :
  exists g first,
    graph (initialize w).2 = Some g /\
    (initialize w).1 = Returned first /\
    first_walkable_tile g first /\
    playerPos (makeScene w).2 = first.
Proof.
  destruct (makeScene_run w) as [evs ->]. rewrite initialize_unfold.
  cbn [fst snd graph playerPos set_log set_gridSize set_playerPos set_graph].
  eexists _, _. split_and!; try reflexivity.
  apply generated_first_walkable_tile.
Qed.

(** * Further properties of the script *)

(** ** Coordinates: cells and centres *)

Lemma Qfloor_eq_iff (x : Q) (k : Z) :
  Qfloor x = k <-> (inject_Z k <= x)%Q /\ (x < inject_Z (k + 1))%Q.
Proof.
  split.
  - intros <-. split; [apply Qfloor_le|apply Qlt_floor].
  - intros [Hlo Hhi].
    assert (H1 : k <= Qfloor x).
    { rewrite <- (Qfloor_Z k). by apply Qfloor_resp_le. }
    assert (H2 : Qfloor x < k + 1).
    { rewrite Zlt_Qlt. eapply Qle_lt_trans; [apply Qfloor_le|done]. }
    lia.
Qed.

Lemma centre_in_surface (gridSize : nat) (k : Z) :
  (0 < gridSize)%nat -> 0 <= k < Z.of_nat gridSize ->
  (0 < inject_Z k * cellSize gridSize + cellSize gridSize / 2)%Q /\
  (inject_Z k * cellSize gridSize + cellSize gridSize / 2 < 640)%Q.
Proof.
  intros Hg [Hk0 Hk1]. pose proof (cellSize_pos _ Hg) as Hc.
  pose proof (cellSize_span _ Hg) as Hspan.
  assert (Hk : (0 <= inject_Z k)%Q) by (change 0%Q with (inject_Z 0); by rewrite <- Zle_Qle).
  assert (Hk' : (inject_Z k + 1 <= inject_Z (Z.of_nat gridSize))%Q).
  { change 1%Q with (inject_Z 1). rewrite <- inject_Z_plus, <- Zle_Qle. lia. }
  assert (Hh : (cellSize gridSize / 2 == cellSize gridSize * (1 # 2))%Q) by field.
  rewrite Hh. split; nra.
Qed.

(** X2.  The centre of every tile of the grid lies strictly inside the
    640x640 surface: [placePlayer] and the tween of [movePlayer] never aim
    outside it. *)
Theorem getCoordByTile_in_surface (gridSize : nat) (t : Tile) :
  (0 < gridSize)%nat ->
  0 <= tile_x t < Z.of_nat gridSize ->
  0 <= tile_y t < Z.of_nat gridSize ->
  (0 < pos_x (getCoordByTile gridSize t))%Q /\
  (pos_x (getCoordByTile gridSize t) < 640)%Q /\
  (0 < pos_y (getCoordByTile gridSize t))%Q /\
  (pos_y (getCoordByTile gridSize t) < 640)%Q.
Proof.
  intros Hg Hx Hy. unfold getCoordByTile; cbn [pos_x pos_y].
  destruct (centre_in_surface _ _ Hg Hx), (centre_in_surface _ _ Hg Hy). done.
Qed.

Lemma getCoordByTile_in_surface_witness :
  (0 < pos_x (getCoordByTile 3 (mkTile 2 0)))%Q /\
  (pos_x (getCoordByTile 3 (mkTile 2 0)) < 640)%Q /\
  (0 < pos_y (getCoordByTile 3 (mkTile 2 0)))%Q /\
  (pos_y (getCoordByTile 3 (mkTile 2 0)) < 640)%Q.
Proof. apply (getCoordByTile_in_surface 3 (mkTile 2 0)); cbn; lia. Defined.

(** ** Drawing a path *)

Lemma path_segments_length (gs : nat) (path : list Tile) :
  length (path_segments gs path) = (length path - 1)%nat.
Proof.
  induction path as [|a [|b rest] IH]; [done..|].
  cbn [path_segments length] in *. rewrite IH. lia.
Qed.

Lemma path_segments_lookup (gs : nat) (path : list Tile) (i : nat) (t1 t2 : Tile) :
  path !! i = Some t1 -> path !! S i = Some t2 ->
  path_segments gs path !! i
    = Some (PathLineSegment (getCoordByTile gs t1) (getCoordByTile gs t2)).
Proof.
  revert i. induction path as [|a [|b rest] IH]; intros i H1 H2; [done..|].
  destruct i as [|i].
  - cbn in H1, H2. by injection H1 as ->; injection H2 as ->.
  - cbn [path_segments]. rewrite lookup_cons_ne_0 by done. cbn [Nat.pred].
    by apply IH.
Qed.

(** The loop of [drawPath], entered at counter [k + 1] with [a] the tile at
    [k] and [rest] the tiles after it. *)
Lemma drawPath_loop (gs : nat) (path rest : list Tile) (k : nat) (a : Tile) :
  path !! k = Some a ->
  (forall i, path !! (S k + i)%nat = rest !! i) ->
  emits (for_each (seq (S k) (length rest)) (fun i =>
           t1 ← defined (path !! (i - 1)%nat);
           t2 ← defined (path !! i);
           emit (PathLineSegment (getCoordByTile gs t1) (getCoordByTile gs t2))))
        (path_segments gs (a :: rest)).
Proof.
  revert k a. induction rest as [|b rest IH]; intros k a Ha Hrest.
  - apply emits_ret.
  - cbn [length seq for_each path_segments].
    change (?e :: ?l) with ([e] ++ l). apply emits_bind.
    + intros w. cbn [Nat.sub]. rewrite Nat.sub_0_r, Ha. run.
      specialize (Hrest 0%nat). rewrite Nat.add_0_r in Hrest. rewrite Hrest. cbn [lookup list_lookup].
      run. reflexivity.
    + apply IH.
      * specialize (Hrest 0%nat). by rewrite Nat.add_0_r in Hrest.
      * intros i. specialize (Hrest (S i)). by rewrite Nat.add_succ_r in Hrest.
Qed.

Lemma drawPath_run (path : list Tile) (w : World) :
  drawPath path w =
    (Returned tt, set_log (log w ++ PathLineClear :: path_segments (gridSize w) path) w).
Proof.
  unfold drawPath. run. destruct path as [|a rest]; [reflexivity|].
  destruct rest as [|b rest]; [reflexivity|].
  cbn [length Nat.ltb Nat.leb]. run. cbn [gridSize set_log].
  replace (S (S (length rest)) - 1)%nat with (length (b :: rest)) by (cbn; lia).
  rewrite (drawPath_loop (gridSize w) (a :: b :: rest) (b :: rest) 0 a); [|done..].
  cbn [log set_log]. by rewrite <- app_assoc.
Qed.

(** X3.  [drawPath] never throws and touches nothing but the path line: it
    clears the line and draws one segment per pair of consecutive tiles,
    from centre to centre, in order; a path of fewer than two tiles only
    clears the line. *)
Theorem drawPath_segments (path : list Tile) (w : World) :
  exists segments,
    drawPath path w = (Returned tt, set_log (log w ++ PathLineClear :: segments) w) /\
    length segments = (length path - 1)%nat /\
    forall i t1 t2, path !! i = Some t1 -> path !! S i = Some t2 ->
      segments !! i = Some (PathLineSegment (getCoordByTile (gridSize w) t1)
                                            (getCoordByTile (gridSize w) t2)).
Proof.
  exists (path_segments (gridSize w) path). split_and!.
  - apply drawPath_run.
  - apply path_segments_length.
  - intros i t1 t2. apply path_segments_lookup.
Qed.

(** X4.  In the idle state, when the search returns a path [p], [mouseMove]
    records the search call and redraws the line along [playerPos :: p];
    the position, the lock, the timers and the grid stay as they are.
    When [p] is empty the line is cleared and nothing is drawn. *)
Theorem mouseMove_previews (w : World) (position : Point) (p : list GridNode) :
  playerMoving w = false ->
  (searchPath (playerPos w) (getTileByCoord (gridSize w) position) w).1 = Returned p ->
  exists pos grid startCell endCell,
    playerPos w = Some pos /\
    mouseMove position w =
      (Returned tt,
       set_log (log w ++ [SearchCall grid startCell endCell; PathLineClear]
                      ++ path_segments (gridSize w) (pos :: (node_tile <$> p))) w) /\
    (p = [] -> path_segments (gridSize w) (pos :: (node_tile <$> p)) = []) /\
    length (path_segments (gridSize w) (pos :: (node_tile <$> p))) = length p.
Proof.
  intros Hm Hp.
  apply searchPath_returned in Hp as (grid & s & srow & erow & _ & Hpos & _ & _ & _ & Hrun).
  exists s, grid, (js_index srow (tile_y s)),
    (js_index erow (tile_y (getTileByCoord (gridSize w) position))).
  split_and!; [done| |by intros ->|].
  - unfold mouseMove. run. rewrite Hm. run. rewrite Hrun. run.
    rewrite Hpos. cbn [playerPos set_log]. run. rewrite drawPath_run.
    cbn [log set_log gridSize]. by rewrite <- app_assoc.
  - rewrite path_segments_length. cbn [length]. rewrite length_fmap. lia.
Qed.

Lemma mouseMove_previews_witness :
  exists pos grid startCell endCell,
    playerPos idle_world = Some pos /\
    mouseMove (mkPoint 300 300) idle_world =
      (Returned tt,
       set_log (log idle_world ++ [SearchCall grid startCell endCell; PathLineClear]
                      ++ path_segments (gridSize idle_world)
                           (pos :: (node_tile <$> [mkNode 1 1 1]))) idle_world) /\
    ([mkNode 1 1 1] = [] ->
       path_segments (gridSize idle_world) (pos :: (node_tile <$> [mkNode 1 1 1])) = []) /\
    length (path_segments (gridSize idle_world) (pos :: (node_tile <$> [mkNode 1 1 1])))
      = length [mkNode 1 1 1].
Proof.
  apply (mouseMove_previews idle_world (mkPoint 300 300) [mkNode 1 1 1]);
    [reflexivity | vm_compute; reflexivity].
Defined.

(** ** Filling the tile map *)

Lemma aborts_throw_defined {A : Type} (k : A -> Js unit) :
  aborts (defined None ≫= k) [].
Proof. intros w. run. by rewrite app_nil_r, set_log_id. Qed.

Lemma aborts_bind_l (m k : Js unit) (evs : list Event) :
  aborts m evs -> aborts (m;; k) evs.
Proof. intros Hm w. by rewrite bind_run, Hm. Qed.

Lemma aborts_bind_r (m k : Js unit) (e1 e2 : list Event) :
  emits m e1 -> aborts k e2 -> aborts (m;; k) (e1 ++ e2).
Proof.
  intros Hm Hk w. rewrite bind_run, Hm, Hk. cbn [log set_log].
  by rewrite set_log_twice, app_assoc.
Qed.

(** A loop whose rounds each either return or throw, whatever the store:
    it returns when every round does and throws at the first that throws. *)
Lemma for_each_outcome {A : Type} (values : list A) (body : A -> Js unit)
    (ok : A -> Prop) `{!forall a, Decision (ok a)} :
  (forall a, a ∈ values -> ok a -> exists e, emits (body a) e) ->
  (forall a, a ∈ values -> ~ ok a -> exists e, aborts (body a) e) ->
  exists evs,
    (Forall ok values /\ emits (for_each values body) evs) \/
    (~ Forall ok values /\ aborts (for_each values body) evs).
Proof.
  induction values as [|a rest IH]; intros Hok Hbad; cbn [for_each].
  - exists []. left. split; [constructor|apply emits_ret].
  - destruct (decide (ok a)) as [Ha|Ha].
    + destruct (Hok a) as [e1 H1]; [by left|done|].
      destruct IH as [e2 [[Hall H2]|[Hnot H2]]].
      { intros b Hb. apply Hok. by right. }
      { intros b Hb. apply Hbad. by right. }
      * exists (e1 ++ e2). left. split; [by constructor|by apply emits_bind].
      * exists (e1 ++ e2). right. split; [|by apply aborts_bind_r].
        by intros [_ ?]%Forall_cons.
    + destruct (Hbad a) as [e1 H1]; [by left|done|].
      exists e1. right. split; [|by apply aborts_bind_l].
      by intros [? _]%Forall_cons.
Qed.

Lemma tile_reads_all_rows (g : Grid) :
  Forall (fun i => Forall (fun j => is_Some (row ← g !! j; row !! i))
                          (seq 0 (length g)))
         (seq 0 (length g)) <->
  forall row, row ∈ g -> (length g <= length row)%nat.
Proof.
  rewrite Forall_forall. split.
  - intros Hall row (j & Hj)%list_elem_of_lookup.
    destruct (decide (length g <= length row)%nat) as [|Hshort]; [done|].
    specialize (Hall (length row)). rewrite Forall_forall in Hall.
    destruct (Hall ltac:(apply elem_of_seq; lia) j) as [node Hnode].
    { apply elem_of_seq. apply lookup_lt_Some in Hj. lia. }
    rewrite Hj in Hnode. cbn in Hnode. apply lookup_lt_Some in Hnode. lia.
  - intros Hrows i [_ Hi]%elem_of_seq. rewrite Forall_forall.
    intros j [_ Hj]%elem_of_seq.
    destruct (lookup_lt_is_Some_2 g j) as [row Hrow]; [lia|]. rewrite Hrow. cbn.
    apply lookup_lt_is_Some_2.
    specialize (Hrows row ltac:(by eapply list_elem_of_lookup_2)). lia.
Qed.

Lemma tile_loops_outcome (g : Grid) :
  exists evs,
    ((forall row, row ∈ g -> (length g <= length row)%nat) /\
     emits (for_each (seq 0 (length g)) (fun i =>
              for_each (seq 0 (length g)) (fun j =>
                row ← defined (g !! j);
                node ← defined (row !! i);
                emit (TilemapTile (if weight node =? 0 then "brick.png" else "grass.png")
                                  (Z.of_nat i * 32) (Z.of_nat j * 32))))) evs) \/
    (~ (forall row, row ∈ g -> (length g <= length row)%nat) /\
     aborts (for_each (seq 0 (length g)) (fun i =>
              for_each (seq 0 (length g)) (fun j =>
                row ← defined (g !! j);
                node ← defined (row !! i);
                emit (TilemapTile (if weight node =? 0 then "brick.png" else "grass.png")
                                  (Z.of_nat i * 32) (Z.of_nat j * 32))))) evs).
Proof.
  assert (Hinner : forall i, exists evs,
    (Forall (fun j => is_Some (row ← g !! j; row !! i)) (seq 0 (length g)) /\
     emits (for_each (seq 0 (length g)) (fun j =>
              row ← defined (g !! j);
              node ← defined (row !! i);
              emit (TilemapTile (if weight node =? 0 then "brick.png" else "grass.png")
                                (Z.of_nat i * 32) (Z.of_nat j * 32)))) evs) \/
    (~ Forall (fun j => is_Some (row ← g !! j; row !! i)) (seq 0 (length g)) /\
     aborts (for_each (seq 0 (length g)) (fun j =>
              row ← defined (g !! j);
              node ← defined (row !! i);
              emit (TilemapTile (if weight node =? 0 then "brick.png" else "grass.png")
                                (Z.of_nat i * 32) (Z.of_nat j * 32)))) evs)).
  { intros i. apply for_each_outcome; [apply _|..].
    - intros j _ [node Hnode]. destruct (g !! j) as [row|]; [|done]. cbn in Hnode.
      eexists. intros w. run. rewrite Hnode. run. reflexivity.
    - intros j _ Hno. destruct (g !! j) as [row|]; [|exists []; apply aborts_throw_defined].
      cbn in Hno. destruct (row !! i) as [node|] eqn:Hnode; [by destruct Hno|].
      exists []. intros w. run. rewrite Hnode. run. by rewrite app_nil_r, set_log_id. }
  destruct (for_each_outcome (seq 0 (length g)) (fun i =>
      for_each (seq 0 (length g)) (fun j =>
        row ← defined (g !! j);
        node ← defined (row !! i);
        emit (TilemapTile (if weight node =? 0 then "brick.png" else "grass.png")
                          (Z.of_nat i * 32) (Z.of_nat j * 32))))
      (fun i => Forall (fun j => is_Some (row ← g !! j; row !! i)) (seq 0 (length g))))
    as [evs Hout].
  - intros i _ Hi. destruct (Hinner i) as [e [[_ He]|[Hno _]]]; [by exists e|done].
  - intros i _ Hi. destruct (Hinner i) as [e [[Hyes _]|[_ He]]]; [done|by exists e].
  - exists evs. by rewrite <- tile_reads_all_rows.
Qed.

(** X5.  [fillTileMap] reads [nodes[j][i]] for all [i, j] below the number
    of rows: it returns exactly when no row is shorter than the grid is
    tall, and throws otherwise; either way the renderer has already taken
    the number of rows as its [gridSize], and only [gridSize] and the
    drawing record change. *)
Theorem fillTileMap_returns_iff (g : Grid) (w : World) :
  ((fillTileMap g w).1 = Returned tt <->
     forall row, row ∈ g -> (length g <= length row)%nat) /\
  ((fillTileMap g w).1 = Thrown <->
     exists row, row ∈ g /\ (length row < length g)%nat) /\
  (fillTileMap g w).2
    = set_log (log (fillTileMap g w).2) (set_gridSize (length g) w).
Proof.
  assert (Hshort : ~ (forall row, row ∈ g -> (length g <= length row)%nat) <->
                   exists row, row ∈ g /\ (length row < length g)%nat).
  { split.
    - intros H.
      destruct (decide (Exists (fun row : list GridNode => length row < length g)%nat g))
        as [E|E]; [by apply Exists_exists in E|].
      destruct H. intros row Hrow.
      destruct (decide (length g <= length row)%nat); [done|].
      destruct E. apply Exists_exists. exists row. split; [done|lia].
    - intros (row & Hrow & Hlt) H. specialize (H row Hrow). lia. }
  unfold fillTileMap, resizeTilemap. run.
  destruct (tile_loops_outcome g) as [evs [[Hyes Hrun]|[Hno Hrun]]]; rewrite Hrun; run;
    cbn [fst snd]; (split_and!; [| |reflexivity]).
  - by split.
  - split; [done|]. intros Hsome. by apply Hshort in Hsome.
  - split; [done|]. intros Hall. by destruct Hno.
  - split; [|done]. intros _. by apply Hshort.
Qed.

(** ** Regeneration at the edges of the options *)

Lemma loop_rounds_none_or_nonpositive (bound : option Q) :
  bound = None \/ (exists q, bound = Some q /\ (q <= 0)%Q) -> loop_rounds bound = 0%nat.
Proof.
  intros [-> | (q & -> & Hq)]; [done|]. unfold loop_rounds.
  apply Qceiling_resp_le in Hq. change (Qceiling 0) with 0 in Hq. lia.
Qed.

(** X6.  With [gridSize] missing, zero or negative, no loop round runs:
    [makeScene] leaves an empty grid, draws nothing from [Math.random],
    sets the renderer's size to 0 and [playerPos] to [undefined], and
    throws in [placePlayer]. *)
Theorem makeScene_empty_grid (w : World) :
  opts w !! "gridSize" = None \/
    (exists q, opts w !! "gridSize" = Some q /\ (q <= 0)%Q) ->
  (makeScene w).1 = Thrown /\
  graph (makeScene w).2 = Some [] /\
  gridSize (makeScene w).2 = 0%nat /\
  playerPos (makeScene w).2 = None /\
  drawn (makeScene w).2 = drawn w.
Proof.
  intros Hsize%loop_rounds_none_or_nonpositive.
  destruct (makeScene_run w) as [evs ->].
  cbn [fst snd graph gridSize playerPos drawn set_log set_gridSize set_playerPos
       set_graph set_drawn].
  unfold generate. rewrite Hsize. cbn. split_and!; reflexivity.
Qed.

Lemma makeScene_empty_grid_witness :
  (makeScene empty_grid_world).1 = Thrown /\
  graph (makeScene empty_grid_world).2 = Some [] /\
  gridSize (makeScene empty_grid_world).2 = 0%nat /\
  playerPos (makeScene empty_grid_world).2 = None /\
  drawn (makeScene empty_grid_world).2 = drawn empty_grid_world.
Proof.
  apply (makeScene_empty_grid empty_grid_world).
  right. exists 0%Q. split; [reflexivity|discriminate].
Defined.

Lemma no_field_cell_weight (wallFrequency : option Q) (rnd : nat -> Q) (k : nat) :
  wallFrequency = None \/ (exists wf, wallFrequency = Some wf /\ (1 <= wf)%Q) ->
  (0 <= rnd k)%Q -> (rnd k < 1)%Q ->
  cell_weight wallFrequency rnd k = 0.
Proof.
  intros [-> | (wf & -> & Hwf)] H0 H1; [done|].
  apply wall_iff; [|done|].
  - by apply Qlt_le_trans with 1%Q.
  - by apply Qlt_le_trans with 1%Q.
Qed.

Lemma generated_all_walls (o : gmap string Q) (rnd : nat -> Q) (k0 : nat) :
  o !! "wallFrequency" = None \/
    (exists wf, o !! "wallFrequency" = Some wf /\ (1 <= wf)%Q) ->
  (forall k, (0 <= rnd k)%Q /\ (rnd k < 1)%Q) ->
  (forall x y c, cell (generate o rnd k0).1 x y = Some c -> c = 0) /\
  firstEmpty (generate o rnd k0).2 = None.
Proof.
  intros Hwf Hrnd.
  assert (Hcells : forall x y c, cell (generate o rnd k0).1 x y = Some c -> c = 0).
  { destruct (generate_spec o rnd k0) as (-> & _ & _). intros x y c. unfold cell.
    rewrite list_lookup_fmap.
    destruct (seq 0 _ !! x) as [x'|]; [|done]. cbn. rewrite list_lookup_fmap.
    destruct (seq 0 _ !! y) as [y'|]; [|done]. cbn. intros [= <-].
    apply no_field_cell_weight; [done|apply Hrnd..]. }
  split; [done|].
  destruct (generate_spec o rnd k0) as (_ & _ & [_ Hfirst]).
  destruct (firstEmpty _) as [f|]; [|done].
  destruct Hfirst as (fx & fy & _ & H1 & _). by apply Hcells in H1.
Qed.

(** X7.  With [wallFrequency] missing or at least 1, and draws in [0, 1) as
    [Math.random] gives them, every node of the generated grid is a wall:
    [initialize] returns [undefined] and [makeScene] throws in
    [placePlayer], leaving [playerPos] undefined. *)
Theorem makeScene_all_walls (w : World) :
  opts w !! "wallFrequency" = None \/
    (exists wf, opts w !! "wallFrequency" = Some wf /\ (1 <= wf)%Q) ->
  (forall k, (0 <= random w k)%Q /\ (random w k < 1)%Q) ->
  (initialize w).1 = Returned None /\
  (makeScene w).1 = Thrown /\
  playerPos (makeScene w).2 = None /\
  exists g, graph (makeScene w).2 = Some g /\
    forall row, row ∈ g -> forall c, c ∈ row -> weight c = 0.
Proof.
  intros Hwf Hrnd.
  destruct (generated_all_walls (opts w) (random w) (drawn w) Hwf Hrnd) as [Hcells Hfirst].
  destruct (makeScene_run w) as [evs ->]. rewrite initialize_unfold, Hfirst.
  cbn [fst snd graph playerPos set_log set_gridSize set_playerPos set_graph].
  split_and!; try reflexivity. eexists. split; [reflexivity|].
  intros row (x & Hrow)%list_elem_of_lookup c (y & Hc)%list_elem_of_lookup.
  apply (Hcells x y). rewrite <- Graph_lookup, Hrow. cbn. by rewrite Hc.
Qed.

Lemma example_draws_range (k : nat) :
  (0 <= example_draws k)%Q /\ (example_draws k < 1)%Q.
Proof. unfold example_draws. by destruct (_ =? _)%nat. Qed.

Lemma makeScene_all_walls_witness :
  (initialize all_walls_world).1 = Returned None /\
  (makeScene all_walls_world).1 = Thrown /\
  playerPos (makeScene all_walls_world).2 = None /\
  exists g, graph (makeScene all_walls_world).2 = Some g /\
    forall row, row ∈ g -> forall c, c ∈ row -> weight c = 0.
Proof.
  apply (makeScene_all_walls all_walls_world).
  - right. exists 1%Q. split; [reflexivity|discriminate].
  - apply example_draws_range.
Defined.

(** X8.  With [playerPos] undefined and the lock free, [mouseMove] and
    [mouseClick] throw in [searchPath] before the search is consulted and
    leave the store as it is. *)
Theorem handlers_throw_without_player (w : World) (position : Point) :
  playerPos w = None ->
  playerMoving w = false ->
  mouseMove position w = (Thrown, w) /\
  mouseClick position w = (Thrown, w).
Proof.
  intros Hpos Hm. unfold mouseMove, mouseClick, searchPath. run. rewrite Hm. run.
  rewrite Hpos. destruct (graph w); run; done.
Qed.

Lemma handlers_throw_without_player_witness :
  mouseMove (mkPoint 10 10) (makeScene all_walls_world).2
    = (Thrown, (makeScene all_walls_world).2) /\
  mouseClick (mkPoint 10 10) (makeScene all_walls_world).2
    = (Thrown, (makeScene all_walls_world).2).
Proof.
  apply (handlers_throw_without_player (makeScene all_walls_world).2 (mkPoint 10 10));
    reflexivity.
Defined.

(** X9.  Whatever number [gridSize] is, the generated grid is square with
    side the least integer not below it (no side at all when it is not
    positive), and [initialize] consumes exactly side * side draws. *)
Theorem initialize_side (w : World) (q : Q) :
  opts w !! "gridSize" = Some q ->
  exists g,
    graph (initialize w).2 = Some g /\
    square (Z.to_nat (Qceiling q)) g /\
    drawn (initialize w).2 = (drawn w + Z.to_nat (Qceiling q) * Z.to_nat (Qceiling q))%nat.
Proof.
  intros Hq. rewrite initialize_unfold. cbn [snd graph drawn set_graph set_drawn].
  eexists. split; [reflexivity|].
  pose proof (generated_square (opts w) (random w) (drawn w)) as Hsq.
  destruct (generate_spec (opts w) (random w) (drawn w)) as (_ & Hk & _).
  rewrite Hq in Hsq, Hk. done.
Qed.

Lemma initialize_side_witness :
  exists g,
    graph (initialize fractional_size_world).2 = Some g /\
    square (Z.to_nat (Qceiling (5 # 2))) g /\
    drawn (initialize fractional_size_world).2
      = (drawn fractional_size_world
         + Z.to_nat (Qceiling (5 # 2)) * Z.to_nat (Qceiling (5 # 2)))%nat.
Proof. apply (initialize_side fractional_size_world (5 # 2)). reflexivity. Defined.

(** ** Options compose *)

(** X10.  Two [setOption] calls in a row are one call with the later update
    laid over the earlier, and an empty update changes nothing. *)
Theorem setOption_compose (w : World) (u v : gmap string Q) :
  setOption v (setOption u w).2 = setOption (v ∪ u) w /\
  setOption ∅ w = (Returned tt, w).
Proof.
  unfold setOption, modify; cbn [snd opts set_opts].
  rewrite !Object_assign_fresh. split.
  - by rewrite (assoc_L (∪)).
  - rewrite (left_id_L ∅ (∪)). by destruct w.
Qed.

(** ** What a click does to the store *)

(** [mouseClick] either changes nothing but the log, or (from the idle
    state, on a non-empty answer of the search) takes the lock, queues one
    timer and moves [playerPos] to the last node of the answer. *)
Lemma mouseClick_effect (w : World) (position : Point) :
  (mouseClick position w).2 = set_log (log (mouseClick position w).2) w \/
  (playerMoving w = false /\
   exists grid s e p goal,
     graph w = Some grid /\
     search w grid (grid_node grid s) (grid_node grid e) = Some p /\
     last p = Some goal /\
     (mouseClick position w).2 =
       set_playerPos (Some (node_tile goal))
         (set_timers (timers w ++ [1000])
            (set_playerMoving true
               (set_log (log (mouseClick position w).2) w)))).
Proof.
  unfold mouseClick. run. destruct (playerMoving w) eqn:Hm; run.
  { left. symmetry. apply set_log_id. }
  pose proof (logs_only_searchPath (playerPos w)
    (getTileByCoord (gridSize w) position) w) as Hw1.
  destruct (searchPath (playerPos w) (getTileByCoord (gridSize w) position) w)
    as [[p|] w1] eqn:Hs; cbn [fst snd] in *; [|left; by rewrite Hw1].
  assert (Hp : (searchPath (playerPos w) (getTileByCoord (gridSize w) position) w).1
               = Returned p) by (by rewrite Hs).
  apply searchPath_returned in Hp
    as (grid & s & srow & erow & Hg & Hpos & Hsrow & Herow & Hsearch & _).
  destruct (Nat.eqb_spec (length p) 0) as [Hz|Hnz]; run; [left; by rewrite Hw1|].
  right. split; [done|].
  destruct (last p) as [goal|] eqn:Hlast.
  2:{ apply last_None in Hlast. by subst p. }
  exists grid, s, (getTileByCoord (gridSize w) position), p, goal.
  split_and!; [done| |done|].
  { unfold grid_node. by rewrite Hsrow, Herow. }
  rewrite Hpos. run. unfold movePlayer, setTimeout. run.
  rewrite (last_of_path s p goal Hlast). cbn [negb length Nat.eqb]. run.
  cbn [snd log timers gridSize set_log set_timers set_playerMoving set_playerPos].
  by rewrite Hw1.
Qed.

(** ** Invariants of the event loop *)

Lemma onchange_run (key : string) (value : Q) (w : World) :
  (setOption {[ key := value ]};; makeScene) w =
    makeScene (set_opts (Object_assign ∅ [opts w; {[ key := value ]}]) w).
Proof. reflexivity. Qed.

Lemma makeScene_lock (w : World) :
  playerMoving (makeScene w).2 = playerMoving w /\
  timers (makeScene w).2 = timers w /\
  search (makeScene w).2 = search w.
Proof. by destruct (makeScene_run w) as [evs ->]. Qed.

Lemma dispatch_lock_discipline (i : Input) (w : World) :
  lock_discipline w -> lock_discipline (dispatch i w).
Proof.
  unfold lock_discipline. intros Hinv. destruct i as [p|p| | v | v |]; cbn [dispatch].
  - by rewrite (logs_only_mouseMove p w).
  - destruct (mouseClick_effect w p) as [-> | (Hm & ? & ? & ? & ? & ? & _ & _ & _ & ->)];
      [done|]. cbn [timers playerMoving set_playerPos set_timers set_playerMoving].
    rewrite Hinv, Hm. reflexivity.
  - unfold btnGenerate_onclick. by destruct (makeScene_lock w) as (-> & -> & _).
  - unfold selectWallFrequency_onchange. rewrite onchange_run.
    by destruct (makeScene_lock (set_opts (Object_assign ∅
         [opts w; {[ "wallFrequency" := v ]}]) w)) as (-> & -> & _).
  - unfold selectGridSize_onchange. rewrite onchange_run.
    by destruct (makeScene_lock (set_opts (Object_assign ∅
         [opts w; {[ "gridSize" := v ]}]) w)) as (-> & -> & _).
  - unfold timer_fires. rewrite Hinv. destruct (playerMoving w) eqn:Hm; [done|].
    by rewrite Hm.
Qed.

Lemma play_snoc (inputs : list Input) (i : Input) (w : World) :
  play (inputs ++ [i]) w = dispatch i (play inputs w).
Proof. unfold play. by rewrite foldl_snoc. Qed.

Lemma play_lock_discipline (inputs : list Input) (w : World) :
  lock_discipline w -> lock_discipline (play inputs w).
Proof.
  intros Hinv. induction inputs as [|i inputs IH] using rev_ind; [done|].
  rewrite play_snoc. by apply dispatch_lock_discipline.
Qed.

(** X11.  Started with the lock free and no timer pending, and whatever
    events follow (moves, clicks, regenerations, option changes, the timer),
    the page has at most one timer pending, exactly while the lock is held;
    so once the timer elapses the lock is free and no timer is left. *)
Theorem lock_discipline_kept (inputs : list Input) (w : World) :
  playerMoving w = false ->
  timers w = [] ->
  lock_discipline (play inputs w) /\
  playerMoving (play (inputs ++ [TimerElapsed]) w) = false /\
  timers (play (inputs ++ [TimerElapsed]) w) = [].
Proof.
  intros Hm Ht.
  assert (Hinv : lock_discipline (play inputs w)).
  { apply play_lock_discipline. unfold lock_discipline. by rewrite Hm, Ht. }
  split; [done|]. rewrite play_snoc. cbn [dispatch]. unfold timer_fires.
  unfold lock_discipline in Hinv. destruct (playerMoving (play inputs w)) eqn:Hp;
    rewrite Hinv; done.
Qed.

Lemma lock_discipline_kept_witness :
  lock_discipline
    (play [PointerClick (mkPoint 300 300); GridSizeChange 8; PointerClick (mkPoint 10 10)]
          idle_world) /\
  playerMoving
    (play ([PointerClick (mkPoint 300 300); GridSizeChange 8; PointerClick (mkPoint 10 10)]
           ++ [TimerElapsed]) idle_world) = false /\
  timers
    (play ([PointerClick (mkPoint 300 300); GridSizeChange 8; PointerClick (mkPoint 10 10)]
           ++ [TimerElapsed]) idle_world) = [].
Proof.
  apply (lock_discipline_kept
           [PointerClick (mkPoint 300 300); GridSizeChange 8; PointerClick (mkPoint 10 10)]
           idle_world); reflexivity.
Defined.

Lemma indexed_Graph (nodes : list (list Z)) : indexed (Graph nodes).
Proof.
  intros [tx ty] n. unfold grid_node, js_index, Graph; cbn [tile_x tile_y].
  destruct (decide (0 <= tx)) as [Hx|]; [|done].
  rewrite list_lookup_imap. destruct (nodes !! Z.to_nat tx) as [row|]; [|done]. cbn.
  destruct (decide (0 <= ty)) as [Hy|]; [|done].
  rewrite list_lookup_imap. destruct (row !! Z.to_nat ty) as [wgt|]; [|done]. cbn.
  intros [= <-]. unfold node_tile; cbn. f_equal; lia.
Qed.

Lemma grid_weight_node (g : Grid) (t : Tile) (c : Z) :
  grid_weight g t = Some c -> is_Some (grid_node g t).
Proof.
  unfold grid_weight, grid_node. destruct (js_index g (tile_x t)) as [row|]; [|done].
  cbn. by destruct (js_index row (tile_y t)).
Qed.

Lemma grid_node_range (n : nat) (g : Grid) (t : Tile) :
  square n g -> is_Some (grid_node g t) ->
  0 <= tile_x t < Z.of_nat n /\ 0 <= tile_y t < Z.of_nat n.
Proof.
  intros [Hlen Hrows] [node Hnode]. unfold grid_node, js_index in Hnode.
  destruct (decide (0 <= tile_x t)) as [Hx|]; [|done].
  destruct (g !! Z.to_nat (tile_x t)) as [row|] eqn:Hrow; [|done]. cbn in Hnode.
  destruct (decide (0 <= tile_y t)) as [Hy|]; [|done].
  pose proof (Hrows row ltac:(by eapply list_elem_of_lookup_2)) as Hr.
  apply lookup_lt_Some in Hrow, Hnode. lia.
Qed.

Lemma makeScene_staged (w : World) : staged (makeScene w).2.
Proof.
  destruct (makeScene_run w) as [evs ->]. eexists.
  cbn [snd graph gridSize playerPos set_log set_gridSize set_playerPos set_graph].
  split_and!; [reflexivity|apply generated_square|apply indexed_Graph|].
  intros pos Hpos. pose proof (generated_first (opts w) (random w) (drawn w)) as Hfirst.
  rewrite Hpos in Hfirst. destruct Hfirst as [H1 _]. by eapply grid_weight_node.
Qed.

Lemma dispatch_search (i : Input) (w : World) : search (dispatch i w) = search w.
Proof.
  destruct i as [p|p| | v | v |]; cbn [dispatch].
  - by rewrite (logs_only_mouseMove p w).
  - by destruct (mouseClick_effect w p) as [-> | (_ & ? & ? & ? & ? & ? & _ & _ & _ & ->)].
  - apply makeScene_lock.
  - unfold selectWallFrequency_onchange. rewrite onchange_run.
    by destruct (makeScene_lock (set_opts (Object_assign ∅
         [opts w; {[ "wallFrequency" := v ]}]) w)) as (_ & _ & ->).
  - unfold selectGridSize_onchange. rewrite onchange_run.
    by destruct (makeScene_lock (set_opts (Object_assign ∅
         [opts w; {[ "gridSize" := v ]}]) w)) as (_ & _ & ->).
  - unfold timer_fires. by destruct (timers w).
Qed.

Lemma dispatch_staged (i : Input) (w : World) :
  answers_with_grid_nodes (search w) -> staged w -> staged (dispatch i w).
Proof.
  intros Hsound Hst. destruct i as [p|p| | v | v |]; cbn [dispatch];
    try apply makeScene_staged.
  - by rewrite (logs_only_mouseMove p w).
  - destruct (mouseClick_effect w p)
      as [-> | (_ & grid & sc & ec & path & goal & Hg & Hs & Hlast & ->)]; [done|].
    destruct Hst as (g & Hg' & Hsq & Hidx & _).
    rewrite Hg in Hg'. injection Hg' as ->.
    exists g. cbn [graph gridSize playerPos set_playerPos set_timers set_playerMoving set_log].
    split_and!; [done..|]. intros pos [= <-].
    destruct (Hsound g sc ec path goal Hs) as [t Ht].
    { apply last_Some in Hlast as [l' ->]. apply elem_of_app. right. by left. }
    rewrite (Hidx t goal Ht). by exists goal.
  - unfold timer_fires. by destruct (timers w).
Qed.

(** X12.  Once a grid has been made, and with a search implementation that
    answers with nodes of the grid it is given, every run of events keeps
    the renderer and the search on one square grid of the renderer's size
    whose nodes sit at their indices, and keeps [playerPos], whenever it is
    defined, on a tile inside that grid. *)
Theorem staged_kept (inputs : list Input) (w : World) :
  answers_with_grid_nodes (search w) ->
  staged w ->
  staged (play inputs w) /\
  forall pos, playerPos (play inputs w) = Some pos ->
    0 <= tile_x pos < Z.of_nat (gridSize (play inputs w)) /\
    0 <= tile_y pos < Z.of_nat (gridSize (play inputs w)).
Proof.
  intros Hsound Hst.
  assert (Hboth : staged (play inputs w) /\ search (play inputs w) = search w).
  { induction inputs as [|i inputs [IH1 IH2]] using rev_ind; [done|].
    rewrite play_snoc, dispatch_search. split; [|done].
    apply dispatch_staged; [by rewrite IH2|done]. }
  destruct Hboth as [Hfinal _]. split; [done|].
  destruct Hfinal as (g & _ & Hsq & _ & Hpos). intros pos Hp.
  by eapply grid_node_range; [|apply Hpos].
Qed.

Lemma example_search_answers : answers_with_grid_nodes example_search.
Proof.
  intros g s e p n Hp Hn. unfold example_search in Hp. injection Hp as <-.
  destruct (grid_node g e) as [node|] eqn:He; [|by apply elem_of_nil in Hn].
  destruct (weight node =? 0); [by apply elem_of_nil in Hn|].
  apply list_elem_of_singleton in Hn as ->. by exists e.
Qed.

Lemma staged_kept_witness :
  staged (play [PointerClick (mkPoint 300 300); TimerElapsed; PointerMove (mkPoint 10 10)]
               idle_world) /\
  forall pos,
    playerPos (play [PointerClick (mkPoint 300 300); TimerElapsed; PointerMove (mkPoint 10 10)]
                    idle_world) = Some pos ->
    0 <= tile_x pos
      < Z.of_nat (gridSize (play [PointerClick (mkPoint 300 300); TimerElapsed;
                                  PointerMove (mkPoint 10 10)] idle_world)) /\
    0 <= tile_y pos
      < Z.of_nat (gridSize (play [PointerClick (mkPoint 300 300); TimerElapsed;
                                  PointerMove (mkPoint 10 10)] idle_world)).
Proof.
  apply (staged_kept [PointerClick (mkPoint 300 300); TimerElapsed; PointerMove (mkPoint 10 10)]
           idle_world).
  - apply example_search_answers.
  - apply makeScene_staged.
Defined.

(** ** Pointer positions outside the surface *)

Lemma js_index_outside {A : Type} (a : list A) (i : Z) :
  i < 0 \/ Z.of_nat (length a) <= i -> js_index a i = None.
Proof.
  intros Hi. unfold js_index. destruct (decide (0 <= i)); [|done].
  apply lookup_ge_None_2. lia.
Qed.

(** ** Where regeneration puts the player *)

Lemma makeScene_run_place (w : World) :
  exists tiles,
    makeScene w =
      (match firstEmpty (generate (opts w) (random w) (drawn w)).2 with
       | Some _ => Returned tt
       | None => Thrown
       end,
       set_log (log w ++ tiles ++
                  match firstEmpty (generate (opts w) (random w) (drawn w)).2 with
                  | Some f => [PlayerPlace
                                 (getCoordByTile (loop_rounds (opts w !! "gridSize")) f)]
                  | None => []
                  end)
         (set_gridSize (loop_rounds (opts w !! "gridSize"))
            (set_playerPos (firstEmpty (generate (opts w) (random w) (drawn w)).2)
               (set_graph (Some (Graph (generate (opts w) (random w) (drawn w)).1))
                  (set_drawn (consumed (generate (opts w) (random w) (drawn w)).2) w))))).
Proof.
  destruct (fillTileMap_square _ _ (generated_square (opts w) (random w) (drawn w)))
    as [tiles Htiles].
  exists tiles. unfold makeScene. rewrite bind_run, initialize_unfold. run.
  cbn [graph set_graph set_playerPos]. run. rewrite Htiles. run.
  unfold placePlayer. run. cbn [playerPos gridSize set_log set_gridSize set_playerPos].
  destruct (firstEmpty _) as [f|]; run.
  - cbn [log set_log set_gridSize]. by rewrite <- app_assoc.
  - by rewrite app_nil_r.
Qed.

(** X15.  When [makeScene] returns, the player stands on a field of the new
    grid, inside it, and the last thing drawn is the player sprite at the
    centre of that tile. *)
Theorem makeScene_places_player (w : World) :
  (makeScene w).1 = Returned tt ->
  exists g pos,
    graph (makeScene w).2 = Some g /\
    playerPos (makeScene w).2 = Some pos /\
    grid_weight g pos = Some 1 /\
    0 <= tile_x pos < Z.of_nat (gridSize (makeScene w).2) /\
    0 <= tile_y pos < Z.of_nat (gridSize (makeScene w).2) /\
    last (log (makeScene w).2)
      = Some (PlayerPlace (getCoordByTile (gridSize (makeScene w).2) pos)).
Proof.
  destruct (makeScene_run_place w) as [tiles ->].
  cbn [fst snd graph gridSize playerPos log set_log set_gridSize set_playerPos set_graph].
  pose proof (generated_first (opts w) (random w) (drawn w)) as Hfirst.
  destruct (firstEmpty _) as [f|]; [|discriminate]. intros _.
  destruct Hfirst as [H1 _].
  destruct (grid_node_range _ _ f (generated_square (opts w) (random w) (drawn w))
              (grid_weight_node _ _ _ H1)) as [Hx Hy].
  eexists _, f. split; [reflexivity|]. split; [reflexivity|].
  split; [done|]. split; [done|]. split; [done|].
  by rewrite !app_assoc, last_snoc.
Qed.

Lemma makeScene_places_player_witness :
  exists g pos,
    graph (makeScene blank_world).2 = Some g /\
    playerPos (makeScene blank_world).2 = Some pos /\
    grid_weight g pos = Some 1 /\
    0 <= tile_x pos < Z.of_nat (gridSize (makeScene blank_world).2) /\
    0 <= tile_y pos < Z.of_nat (gridSize (makeScene blank_world).2) /\
    last (log (makeScene blank_world).2)
      = Some (PlayerPlace (getCoordByTile (gridSize (makeScene blank_world).2) pos)).
Proof. apply (makeScene_places_player blank_world). reflexivity. Defined.

(** ** Draws and cells *)






(** * Binary64 rounding *)

(** ** The nearest integer *)

Lemma round_half_even_cases (q : Q) :
  (round_half_even q = Qfloor q /\ (q - inject_Z (Qfloor q) <= 1 # 2)%Q) \/
  (round_half_even q = Qfloor q + 1 /\ (1 # 2 <= q - inject_Z (Qfloor q))%Q).
Proof.
  unfold round_half_even.
  destruct (Qcompare_spec (q - inject_Z (Qfloor q)) (1 # 2)) as [E|L|G].
  - destruct (Z.even (Qfloor q)); [left|right]; (split; [done|]); rewrite E; apply Qle_refl.
  - left. split; [done|by apply Qlt_le_weak].
  - right. split; [done|by apply Qlt_le_weak].
Qed.

Lemma round_half_even_error (q : Q) :
  (q - (1 # 2) <= inject_Z (round_half_even q))%Q /\
  (inject_Z (round_half_even q) <= q + (1 # 2))%Q.
Proof.
  pose proof (Qfloor_le q) as Hlo. pose proof (Qlt_floor q) as Hhi.
  rewrite inject_Z_plus in Hhi. change (inject_Z 1) with 1%Q in Hhi.
  destruct (round_half_even_cases q) as [[-> H]|[-> H]].
  - split; lra.
  - rewrite inject_Z_plus. change (inject_Z 1) with 1%Q. split; lra.
Qed.

Lemma round_half_even_monotone (p q : Q) :
  (p <= q)%Q -> round_half_even p <= round_half_even q.
Proof.
  intros Hpq. pose proof (Qfloor_resp_le _ _ Hpq) as Hfl.
  destruct (Z.eq_dec (Qfloor p) (Qfloor q)) as [E|NE].
  - unfold round_half_even. rewrite E.
    destruct (Qcompare_spec (p - inject_Z (Qfloor q)) (1 # 2)) as [Ep|Lp|Gp];
      destruct (Qcompare_spec (q - inject_Z (Qfloor q)) (1 # 2)) as [Eq|Lq|Gq];
      try lia; try (destruct (Z.even (Qfloor q)); lia); exfalso; lra.
  - destruct (round_half_even_cases p) as [[-> _]|[-> _]];
      destruct (round_half_even_cases q) as [[-> _]|[-> _]]; lia.
Qed.

Lemma round_half_even_integer (n : Z) : round_half_even (inject_Z n) = n.
Proof.
  unfold round_half_even. rewrite Qfloor_Z.
  destruct (Qcompare_spec (inject_Z n - inject_Z n) (1 # 2)) as [E|L|G]; [|done|].
  - exfalso. assert (H : (inject_Z n - inject_Z n == 0)%Q) by ring.
    rewrite H in E. discriminate E.
  - exfalso. assert (H : (inject_Z n - inject_Z n == 0)%Q) by ring.
    rewrite H in G. discriminate G.
Qed.

Lemma round_half_even_between (lo hi : Z) (q : Q) :
  (inject_Z lo <= q)%Q -> (q <= inject_Z hi)%Q ->
  lo <= round_half_even q <= hi.
Proof.
  intros Hlo Hhi. split.
  - rewrite <- (round_half_even_integer lo). by apply round_half_even_monotone.
  - rewrite <- (round_half_even_integer hi). by apply round_half_even_monotone.
Qed.

(** ** The exponent of a positive number *)

Lemma two_power_pos (e : Z) : (0 < 2 ^ e)%Q.
Proof. by apply Qpower_0_lt. Qed.

Lemma two_power_succ (e : Z) : (2 ^ (e + 1) == 2 * 2 ^ e)%Q.
Proof. rewrite Qpower_plus by discriminate. change (2 ^ 1)%Q with 2%Q. ring. Qed.

Lemma two_power_cancel (a b : Z) : (2 ^ a * 2 ^ b == 2 ^ (a + b))%Q.
Proof. by rewrite Qpower_plus by discriminate. Qed.

Lemma two_power_log2 (n : Z) :
  0 < n -> (2 ^ Z.log2 n <= inject_Z n)%Q /\ (inject_Z n < 2 ^ (Z.log2 n + 1))%Q.
Proof.
  intros Hn. pose proof (Z.log2_spec n Hn) as [Hlo Hhi].
  pose proof (Z.log2_nonneg n) as H0.
  change 2%Q with (inject_Z 2). rewrite <- !Zpower_Qpower by lia.
  rewrite <- Zle_Qle, <- Zlt_Qlt. unfold Z.succ in Hhi. done.
Qed.

Lemma binade_spec (x : Q) :
  (0 < x)%Q -> (2 ^ binade x <= x)%Q /\ (x < 2 ^ (binade x + 1))%Q.
Proof.
  intros Hx. unfold binade.
  assert (Hnum : 0 < Qnum x).
  { destruct x as [a b]. unfold Qlt in Hx. cbn in *. lia. }
  destruct (two_power_log2 (Qnum x) Hnum) as [Ha0 Ha1].
  destruct (two_power_log2 (Zpos (Qden x)) ltac:(lia)) as [Hb0 Hb1].
  set (la := Z.log2 (Qnum x)) in *. set (lb := Z.log2 (Zpos (Qden x))) in *.
  assert (Hxab : (x * inject_Z (Zpos (Qden x)) == inject_Z (Qnum x))%Q).
  { destruct x as [a b]. unfold Qeq, inject_Z. cbn. lia. }
  pose proof (two_power_pos la) as Pa. pose proof (two_power_pos lb) as Pb.
  pose proof (two_power_pos (la - lb)) as Pd.
  assert (Hd : (2 ^ (la - lb) * 2 ^ lb == 2 ^ la)%Q).
  { rewrite two_power_cancel. by replace (la - lb + lb) with la by lia. }
  assert (Hb : (0 < inject_Z (Zpos (Qden x)))%Q) by done.
  rewrite two_power_succ in Ha1, Hb1.
  destruct (Qle_bool (2 ^ (la - lb)) x) eqn:Hle.
  - apply Qle_bool_iff in Hle. split; [done|].
    rewrite two_power_succ. nra.
  - assert (Hlt : (x < 2 ^ (la - lb))%Q).
    { apply Qnot_le_lt. intros H. apply Qle_bool_iff in H. congruence. }
    replace (la - lb - 1 + 1) with (la - lb) by lia. split; [|done].
    assert (Hh : (2 ^ (la - lb) == 2 * 2 ^ (la - lb - 1))%Q).
    { rewrite <- two_power_succ. by replace (la - lb - 1 + 1) with (la - lb) by lia. }
    pose proof (two_power_pos (la - lb - 1)) as Pe. nra.
Qed.

Lemma binade_monotone (x y : Q) :
  (0 < x)%Q -> (x <= y)%Q -> binade x <= binade y.
Proof.
  intros Hx Hxy. destruct (binade_spec x Hx) as [Hx0 _].
  destruct (binade_spec y) as [_ Hy1]; [lra|].
  assert (H : (2 ^ binade x < 2 ^ (binade y + 1))%Q) by lra.
  apply Qpower_lt_compat_l_inv in H; [lia|reflexivity].
Qed.

(** ** The nearest double *)

Lemma significand_range (x : Q) :
  (0 < x)%Q ->
  (inject_Z (2 ^ 52) <= x * 2 ^ (52 - binade x))%Q /\
  (x * 2 ^ (52 - binade x) <= inject_Z (2 ^ 53))%Q.
Proof.
  intros Hx. destruct (binade_spec x Hx) as [H0 H1].
  pose proof (two_power_pos (52 - binade x)) as Ps.
  assert (E52 : (2 ^ binade x * 2 ^ (52 - binade x) == inject_Z (2 ^ 52))%Q).
  { rewrite two_power_cancel. by replace (binade x + (52 - binade x)) with 52 by lia. }
  assert (E53 : (2 ^ (binade x + 1) * 2 ^ (52 - binade x) == inject_Z (2 ^ 53))%Q).
  { rewrite two_power_cancel. by replace (binade x + 1 + (52 - binade x)) with 53 by lia. }
  split; nra.
Qed.

Lemma scale_back (e : Z) : (2 ^ (52 - e) * 2 ^ (e - 52) == 1)%Q.
Proof. rewrite two_power_cancel. by replace (52 - e + (e - 52)) with 0 by lia. Qed.

Lemma round64_pos_bounds (x : Q) :
  (0 < x)%Q ->
  (2 ^ binade x <= round64_pos x)%Q /\ (round64_pos x <= 2 ^ (binade x + 1))%Q.
Proof.
  intros Hx. destruct (significand_range x Hx) as [S0 S1].
  destruct (round_half_even_between _ _ _ S0 S1) as [M0 M1].
  rewrite Zle_Qle in M0, M1. unfold round64_pos.
  pose proof (two_power_pos (binade x - 52)) as Pt.
  assert (E0 : (inject_Z (2 ^ 52) * 2 ^ (binade x - 52) == 2 ^ binade x)%Q).
  { change (inject_Z (2 ^ 52)) with (2 ^ 52)%Q. rewrite two_power_cancel.
    by replace (52 + (binade x - 52)) with (binade x) by lia. }
  assert (E1 : (inject_Z (2 ^ 53) * 2 ^ (binade x - 52) == 2 ^ (binade x + 1))%Q).
  { change (inject_Z (2 ^ 53)) with (2 ^ 53)%Q. rewrite two_power_cancel.
    by replace (53 + (binade x - 52)) with (binade x + 1) by lia. }
  split; nra.
Qed.

Lemma round64_pos_error (x : Q) :
  (0 < x)%Q ->
  (x * (1 - unit_roundoff) <= round64_pos x)%Q /\
  (round64_pos x <= x * (1 + unit_roundoff))%Q.
Proof.
  intros Hx. destruct (significand_range x Hx) as [S0 _].
  destruct (round_half_even_error (x * 2 ^ (52 - binade x))) as [R0 R1].
  pose proof (scale_back (binade x)) as Hst.
  pose proof (two_power_pos (52 - binade x)) as Ps.
  pose proof (two_power_pos (binade x - 52)) as Pt.
  unfold round64_pos, unit_roundoff.
  set (m := inject_Z (round_half_even (x * 2 ^ (52 - binade x)))) in *.
  set (s := (2 ^ (52 - binade x))%Q) in *. set (t := (2 ^ (binade x - 52))%Q) in *.
  change (inject_Z (2 ^ 52)) with (4503599627370496 # 1)%Q in S0.
  assert (Hhalf : ((1 # 2) * t <= x * (1 # 9007199254740992))%Q).
  { assert (H : ((1 # 2) * t == (1 # 9007199254740992) * ((4503599627370496 # 1) * t))%Q)
      by ring.
    assert (H' : ((4503599627370496 # 1) * t <= x)%Q) by nra.
    rewrite H. nra. }
  assert (Hx' : (x == x * s * t)%Q) by (rewrite <- Qmult_assoc, Hst; ring).
  split; nra.
Qed.

Lemma round64_pos_monotone (x y : Q) :
  (0 < x)%Q -> (x <= y)%Q -> (round64_pos x <= round64_pos y)%Q.
Proof.
  intros Hx Hxy. assert (Hy : (0 < y)%Q) by lra.
  pose proof (binade_monotone x y Hx Hxy) as He.
  destruct (Z.eq_dec (binade x) (binade y)) as [E|NE].
  - unfold round64_pos. rewrite E.
    pose proof (two_power_pos (52 - binade y)) as Ps.
    pose proof (two_power_pos (binade y - 52)) as Pt.
    assert (Hm : round_half_even (x * 2 ^ (52 - binade y))
                 <= round_half_even (y * 2 ^ (52 - binade y))).
    { apply round_half_even_monotone. nra. }
    rewrite Zle_Qle in Hm. nra.
  - destruct (round64_pos_bounds x Hx) as [_ Hxu].
    destruct (round64_pos_bounds y Hy) as [Hyl _].
    assert (Hp : (2 ^ (binade x + 1) <= 2 ^ binade y)%Q).
    { apply Qpower_le_compat_l; [lia|discriminate]. }
    lra.
Qed.

Lemma round64_nonneg_cases (x : Q) :
  (0 <= x)%Q ->
  (x == 0 /\ round64 x = 0)%Q \/ ((0 < x)%Q /\ round64 x = round64_pos x).
Proof.
  intros Hx. unfold round64. destruct x as [[|a|a] b].
  - left. done.
  - right. done.
  - exfalso. unfold Qle in Hx. cbn in Hx. lia.
Qed.

(** Rounding a number that is not negative moves it by at most its
    [unit_roundoff] part. *)
Lemma round64_error (x : Q) :
  (0 <= x)%Q ->
  (x * (1 - unit_roundoff) <= round64 x)%Q /\ (round64 x <= x * (1 + unit_roundoff))%Q.
Proof.
  intros Hx. destruct (round64_nonneg_cases x Hx) as [[E ->]|[Hpos ->]].
  - rewrite E. split; discriminate.
  - by apply round64_pos_error.
Qed.

(** Rounding keeps the order. *)
Lemma round64_monotone (x y : Q) :
  (0 <= x)%Q -> (x <= y)%Q -> (round64 x <= round64 y)%Q.
Proof.
  intros Hx Hxy.
  destruct (round64_nonneg_cases x Hx) as [[Ex ->]|[Hxpos ->]];
    destruct (round64_nonneg_cases y ltac:(lra)) as [[Ey ->]|[Hypos ->]].
  - apply Qle_refl.
  - destruct (round64_pos_bounds y Hypos) as [H _].
    pose proof (two_power_pos (binade y)). lra.
  - exfalso. lra.
  - by apply round64_pos_monotone.
Qed.

Lemma round64_nonneg (x : Q) : (0 <= x)%Q -> (0 <= round64 x)%Q.
Proof.
  intros Hx. destruct (round64_error x Hx) as [H _]. unfold unit_roundoff in H. nra.
Qed.

Lemma round64_one : (round64 1 == 1)%Q.
Proof. reflexivity. Qed.

(** A number of at least 1 does not round below 1. *)
Lemma round64_ge_one (x : Q) : (1 <= x)%Q -> (1 <= round64 x)%Q.
Proof.
  intros Hx. pose proof (round64_monotone 1 x ltac:(discriminate) Hx) as H.
  by rewrite round64_one in H.
Qed.

(** ** Agreement with the doubles of the kernel

    [round64] against the binary64 division and multiplication built into
    the kernel, on the computations of the script: the cell size for grids
    of 1 to 100 rows, the quotient of every whole pixel by the cell size for
    some grids, and the scaled draw of the field test. *)

#[local] Set Warnings "-inexact-float".

Lemma cellSize64_agrees :
  forallb (fun g => denotes (640 / double_of_nat g)%float (cellSize64 g)) (seq 1 100) = true.
Proof. vm_compute. reflexivity. Qed.

Lemma quotient64_agrees :
  forallb (fun g =>
    forallb (fun p =>
      denotes (double_of_nat p / (640 / double_of_nat g))%float
              (div64 (inject_Z (Z.of_nat p)) (cellSize64 g)))
      (seq 0 641))
    [1; 2; 3; 7; 10; 29; 39; 58]%nat = true.
Proof. vm_compute. reflexivity. Qed.

Lemma just_below_640_agrees :
  denotes 639.9999999999999%float just_below_640 = true /\
  denotes (639.9999999999999 / (640 / 39))%float
          (div64 just_below_640 (cellSize64 39)) = true.
Proof. split; vm_compute; reflexivity. Qed.

Lemma scaled_draw64_agrees :
  denotes 0.9%float (8106479329266893 # 9007199254740992) = true /\
  denotes 0.8999999999999999%float (2026619832316723 # 2251799813685248) = true /\
  denotes (0.8999999999999999 * (1 / 0.9))%float
          (mul64 (2026619832316723 # 2251799813685248)
                 (div64 1 (8106479329266893 # 9007199254740992))) = true /\
  forallb (fun wf =>
    forallb (fun r => denotes (r * (1 / wf))%float
                        match double_value r, double_value wf with
                        | Some rq, Some wfq => mul64 rq (div64 1 wfq)
                        | _, _ => 0
                        end)
      [0; 0.05; 0.1; 0.25; 0.3; 0.49999999999999994; 0.5; 0.7; 0.9999999999999999]%float)
    [0.1; 0.2; 0.3; 0.4; 0.5; 0.6; 0.7; 0.8; 0.9]%float = true.
Proof. split_and!; vm_compute; reflexivity. Qed.

(** ** Walls and draws, in doubles *)

Lemma isField64_positive (wf r : Q) :
  (0 < wf)%Q -> isField64 (Some wf) r = Finite (Qfloor (mul64 r (div64 1 wf))).
Proof.
  intros Hwf. unfold isField64.
  destruct (Qeq_bool wf 0) eqn:E; [|done].
  apply Qeq_bool_iff in E. rewrite E in Hwf. by apply Qlt_irrefl in Hwf.
Qed.

Lemma reciprocal64_bounds (wf : Q) :
  (0 < wf)%Q ->
  (0 < div64 1 wf)%Q /\
  (1 - unit_roundoff <= div64 1 wf * wf)%Q /\
  (div64 1 wf * wf <= 1 + unit_roundoff)%Q.
Proof.
  intros Hwf. unfold div64.
  assert (Hne : ~ (wf == 0)%Q) by (intros E; rewrite E in Hwf; by apply Qlt_irrefl in Hwf).
  assert (Hi : (1 / wf * wf == 1)%Q) by (field; exact Hne).
  assert (Hpos : (0 < 1 / wf)%Q).
  { unfold Qdiv. rewrite Qmult_1_l. by apply Qinv_lt_0_compat. }
  destruct (round64_error (1 / wf)) as [H0 H1]; [lra|].
  unfold unit_roundoff in *. split_and!; nra.
Qed.

Lemma floor_zero_between (m : Q) : (0 <= m)%Q -> (m < 1)%Q -> Qfloor m = 0.
Proof.
  intros H0 H1.
  assert (Hlo : 0 <= Qfloor m) by (change 0 with (Qfloor 0); by apply Qfloor_resp_le).
  assert (Hhi : Qfloor m < 1).
  { rewrite Zlt_Qlt. eapply Qle_lt_trans; [apply Qfloor_le|done]. }
  lia.
Qed.

Lemma floor_positive_from_one (m : Q) : (1 <= m)%Q -> 0 < Qfloor m.
Proof.
  intros H1. assert (H : Qfloor 1 <= Qfloor m) by (by apply Qfloor_resp_le).
  change (Qfloor 1) with 1 in H. lia.
Qed.

Lemma scaled_draw64_nonneg (wf r : Q) :
  (0 < wf)%Q -> (0 <= r)%Q -> (0 <= mul64 r (div64 1 wf))%Q.
Proof.
  intros Hwf Hr. destruct (reciprocal64_bounds wf Hwf) as (Hd & _ & _).
  apply round64_nonneg. nra.
Qed.

Lemma wall64_iff (wf : Q) (rnd : nat -> Q) (k : nat) :
  (0 < wf)%Q -> (0 <= rnd k)%Q ->
  cell_weight64 (Some wf) rnd k = 0 <-> (mul64 (rnd k) (div64 1 wf) < 1)%Q.
Proof.
  intros Hwf Hr. unfold cell_weight64. rewrite (isField64_positive _ _ Hwf). cbn [truthy].
  pose proof (scaled_draw64_nonneg wf (rnd k) Hwf Hr) as H0.
  destruct (Z.eqb_spec (Qfloor (mul64 (rnd k) (div64 1 wf))) 0) as [E|NE]; cbn [negb].
  - split; [intros _|done]. pose proof (Qlt_floor (mul64 (rnd k) (div64 1 wf))) as H.
    by rewrite E in H.
  - split; [done|]. intros H1. by destruct NE; apply floor_zero_between.
Qed.

(** C7, as the code has it.  For a [wallFrequency] of at least 2^-1022
    (the smallest normal double, so that [1/wallFrequency] is finite) and a
    draw in [0, 1), in the arithmetic of doubles: the cell is a field
    exactly when
    the floored scaled draw is not zero; it is a wall for every draw up to
    [wallFrequency * (1 - 2^-51)] and a field for every draw from
    [wallFrequency * (1 + 2^-52)] on; and a draw that gives a wall keeps
    giving one at every higher [wallFrequency], so the walls get denser,
    not sparser. *)
Theorem walls_grow_with_frequency (wf : Q) (rnd : nat -> Q) (k : nat) :
  (2 ^ (-1022) <= wf)%Q -> (0 <= rnd k)%Q -> (rnd k < 1)%Q ->
  (cell_weight64 (Some wf) rnd k = 1 <-> Qfloor (mul64 (rnd k) (div64 1 wf)) <> 0) /\
  ((rnd k <= wf * (1 - (1 # 2251799813685248)))%Q -> cell_weight64 (Some wf) rnd k = 0) /\
  ((wf * (1 + (1 # 4503599627370496)) <= rnd k)%Q -> cell_weight64 (Some wf) rnd k = 1) /\
  (forall wf', (wf <= wf')%Q ->
     cell_weight64 (Some wf) rnd k = 0 -> cell_weight64 (Some wf') rnd k = 0).
Proof.
  intros Hnormal Hr _.
  assert (Hwf : (0 < wf)%Q).
  { eapply Qlt_le_trans; [apply (two_power_pos (-1022))|done]. }
  destruct (reciprocal64_bounds wf Hwf) as (Hd & Hd0 & Hd1).
  assert (Hx : (0 <= rnd k * div64 1 wf)%Q) by nra.
  destruct (round64_error _ Hx) as [Hm0 Hm1]. fold (mul64 (rnd k) (div64 1 wf)) in Hm0, Hm1.
  unfold unit_roundoff in *. split_and!.
  - unfold cell_weight64. rewrite (isField64_positive _ _ Hwf). cbn [truthy].
    destruct (Z.eqb_spec (Qfloor (mul64 (rnd k) (div64 1 wf))) 0) as [E|E]; cbn [negb];
      split; done.
  - intros Hlow. apply wall64_iff; [done..|].
    assert (Hxw : (rnd k * div64 1 wf * wf
                   <= wf * (1 - (1 # 2251799813685248)) * (1 + (1 # 9007199254740992)))%Q)
      by nra.
    assert (Hxb : (rnd k * div64 1 wf
                   <= (1 - (1 # 2251799813685248)) * (1 + (1 # 9007199254740992)))%Q) by nra.
    nra.
  - intros Hhigh.
    assert (Hxw : (wf * (1 + (1 # 4503599627370496)) * (1 - (1 # 9007199254740992))
                   <= rnd k * div64 1 wf * wf)%Q) by nra.
    assert (Hone : (1 <= rnd k * div64 1 wf)%Q) by nra.
    apply round64_ge_one in Hone. fold (mul64 (rnd k) (div64 1 wf)) in Hone.
    apply floor_positive_from_one in Hone.
    unfold cell_weight64. rewrite (isField64_positive _ _ Hwf). cbn [truthy].
    destruct (Z.eqb_spec (Qfloor (mul64 (rnd k) (div64 1 wf))) 0) as [E|E]; [lia|done].
  - intros wf' Hle Hwall. assert (Hwf' : (0 < wf')%Q) by lra.
    apply wall64_iff in Hwall; [|done..]. apply wall64_iff; [done..|].
    destruct (reciprocal64_bounds wf' Hwf') as (Hd' & _ & _).
    assert (Hrec : (div64 1 wf' <= div64 1 wf)%Q).
    { unfold div64.
      assert (Ha : (1 / wf * wf == 1)%Q) by (field; lra).
      assert (Hb : (1 / wf' * wf' == 1)%Q) by (field; lra).
      assert (Hbpos : (0 < 1 / wf')%Q).
      { unfold Qdiv. rewrite Qmult_1_l. by apply Qinv_lt_0_compat. }
      assert (Hapos : (0 < 1 / wf)%Q).
      { unfold Qdiv. rewrite Qmult_1_l. by apply Qinv_lt_0_compat. }
      apply round64_monotone; [lra|]. nra. }
    assert (Hprod : (mul64 (rnd k) (div64 1 wf') <= mul64 (rnd k) (div64 1 wf))%Q).
    { unfold mul64. apply round64_monotone; nra. }
    lra.
Qed.

Lemma walls_grow_with_frequency_witness :
  (cell_weight64 (Some (1 # 2)) example_draws 0 = 1
     <-> Qfloor (mul64 (example_draws 0) (div64 1 (1 # 2))) <> 0) /\
  ((example_draws 0 <= (1 # 2) * (1 - (1 # 2251799813685248)))%Q ->
     cell_weight64 (Some (1 # 2)) example_draws 0 = 0) /\
  (((1 # 2) * (1 + (1 # 4503599627370496)) <= example_draws 0)%Q ->
     cell_weight64 (Some (1 # 2)) example_draws 0 = 1) /\
  (forall wf', (1 # 2 <= wf')%Q ->
     cell_weight64 (Some (1 # 2)) example_draws 0 = 0 ->
     cell_weight64 (Some wf') example_draws 0 = 0).
Proof.
  apply (walls_grow_with_frequency (1 # 2) example_draws 0);
    [vm_compute; discriminate | discriminate | reflexivity].
Defined.

(** C7, as specified, fails: the draw 3/8 gives a field at
    [wallFrequency] 1/4 and a wall at the higher 1/2, so the draws that give
    a wall do not shrink; and at 1/2 the walls are the draws below 1/2,
    where [1 - 1/wallFrequency] is -1. *)
Lemma walls_sparser_counterexample :
  (1 # 4 < 1 # 2)%Q /\
  cell_weight64 (Some (1 # 4)) (fun _ => 3 # 8)%Q 0 = 1 /\
  cell_weight64 (Some (1 # 2)) (fun _ => 3 # 8)%Q 0 = 0 /\
  ~ walls_shrink64 (1 # 4) (1 # 2) /\
  (fun r => cell_weight64 (Some (1 # 2)) (fun _ => r) 0) <$> [0; 1 # 4; 1 # 2; 3 # 4]%Q
    = [0; 0; 1; 1] /\
  (1 - 1 / (1 # 2) == -1)%Q.
Proof.
  split; [reflexivity|]. split; [vm_compute; reflexivity|].
  split; [vm_compute; reflexivity|]. split; [|split; vm_compute; reflexivity].
  intros H.
  assert (Hwall : cell_weight64 (Some (1 # 2)) (fun _ => 3 # 8)%Q 0 = 0)
    by (vm_compute; reflexivity).
  specialize (H _ _ Hwall). vm_compute in H. discriminate H.
Qed.

(** Between the two bounds the rounding decides: the last double below the
    double 0.9 is a draw below [wallFrequency] that gives a field. *)
Lemma draw_just_below_frequency_is_field :
  (2026619832316723 # 2251799813685248 < 8106479329266893 # 9007199254740992)%Q /\
  cell_weight64 (Some (8106479329266893 # 9007199254740992))
                (fun _ => 2026619832316723 # 2251799813685248)%Q 0 = 1.
Proof. split; vm_compute; reflexivity. Qed.

(** ** Tiles of pointer positions, in doubles *)

Lemma cellSize64_bounds (gridSize : nat) :
  (0 < gridSize)%nat ->
  (0 < cellSize64 gridSize)%Q /\
  (640 * (1 - unit_roundoff)
     <= cellSize64 gridSize * inject_Z (Z.of_nat gridSize))%Q /\
  (cellSize64 gridSize * inject_Z (Z.of_nat gridSize)
     <= 640 * (1 + unit_roundoff))%Q.
Proof.
  intros Hg. unfold cellSize64, div64.
  assert (Hgq : (0 < inject_Z (Z.of_nat gridSize))%Q).
  { change 0%Q with (inject_Z 0). rewrite <- Zlt_Qlt. lia. }
  assert (Hq : (640 / inject_Z (Z.of_nat gridSize) * inject_Z (Z.of_nat gridSize) == 640)%Q)
    by (field; lra).
  assert (Hpos : (0 < 640 / inject_Z (Z.of_nat gridSize))%Q).
  { apply Qlt_shift_div_l; [done|]. by rewrite Qmult_0_l. }
  destruct (round64_error (640 / inject_Z (Z.of_nat gridSize))) as [H0 H1]; [lra|].
  unfold unit_roundoff in *. split_and!; nra.
Qed.

(** The rounded quotient [q / cellSize], against the index [k] of a cell. *)
Lemma quotient64_bounds (c q : Q) :
  (0 < c)%Q -> (0 <= q)%Q ->
  (0 <= div64 q c)%Q /\
  (q * (1 - unit_roundoff) <= div64 q c * c)%Q /\
  (div64 q c * c <= q * (1 + unit_roundoff))%Q.
Proof.
  intros Hc Hq. unfold div64.
  assert (Hqc : (q / c * c == q)%Q) by (field; lra).
  assert (Hpos : (0 <= q / c)%Q).
  { apply Qle_shift_div_l; [done|]. by rewrite Qmult_0_l. }
  destruct (round64_error (q / c) Hpos) as [H0 H1].
  pose proof (round64_nonneg (q / c) Hpos) as Hn.
  unfold unit_roundoff in *. split_and!; nra.
Qed.

Lemma floor64_cell_range (gridSize : nat) (q : Q) :
  (0 < gridSize)%nat ->
  (0 <= q)%Q -> (q <= 640 * (1 - (1 # 2251799813685248)))%Q ->
  0 <= Qfloor (div64 q (cellSize64 gridSize)) < Z.of_nat gridSize.
Proof.
  intros Hg Hlo Hhi. destruct (cellSize64_bounds _ Hg) as (Hc & Hc0 & _).
  destruct (quotient64_bounds _ q Hc Hlo) as (Hd & _ & Hd1).
  assert (Hgq : (0 < inject_Z (Z.of_nat gridSize))%Q).
  { change 0%Q with (inject_Z 0). rewrite <- Zlt_Qlt. lia. }
  unfold unit_roundoff in *. split.
  - change 0 with (Qfloor 0). by apply Qfloor_resp_le.
  - rewrite Zlt_Qlt. eapply Qle_lt_trans; [apply Qfloor_le|]. nra.
Qed.




(** X1.  On a grid of positive size, in the arithmetic of doubles and with
    [cellSize] as the script computes it, a screen position inside the cell
    of a tile [t] of the grid and at least a relative 2^-52 away from the
    cell's edges maps to [t] (axes swapped); on the edges themselves the
    rounding of the quotient decides. *)
Theorem getTileByCoord64_cell (gridSize : nat) (p : Point) (t : Tile) :
  (0 < gridSize)%nat ->
  0 <= tile_x t < Z.of_nat gridSize ->
  0 <= tile_y t < Z.of_nat gridSize ->
  (inject_Z (tile_y t) * cellSize64 gridSize * (1 + (1 # 4503599627370496)) <= pos_x p)%Q ->
  (pos_x p <= (inject_Z (tile_y t) + 1) * cellSize64 gridSize * (1 - (1 # 4503599627370496)))%Q ->
  (inject_Z (tile_x t) * cellSize64 gridSize * (1 + (1 # 4503599627370496)) <= pos_y p)%Q ->
  (pos_y p <= (inject_Z (tile_x t) + 1) * cellSize64 gridSize * (1 - (1 # 4503599627370496)))%Q ->
  getTileByCoord64 gridSize p = t.
Proof.
  intros Hg [Htx _] [Hty _] Hx0 Hx1 Hy0 Hy1.
  destruct (cellSize64_bounds _ Hg) as (Hc & _ & _).
  assert (Hcell : forall (k : Z) (q : Q), 0 <= k ->
    (inject_Z k * cellSize64 gridSize * (1 + (1 # 4503599627370496)) <= q)%Q ->
    (q <= (inject_Z k + 1) * cellSize64 gridSize * (1 - (1 # 4503599627370496)))%Q ->
    Qfloor (div64 q (cellSize64 gridSize)) = k).
  { intros k q Hk Hq0 Hq1.
    assert (Hkq : (0 <= inject_Z k)%Q) by (change 0%Q with (inject_Z 0); by rewrite <- Zle_Qle).
    assert (Hq : (0 <= q)%Q) by nra.
    destruct (quotient64_bounds _ q Hc Hq) as (Hd & Hd0 & Hd1).
    unfold unit_roundoff in *.
    apply Qfloor_eq_iff. rewrite inject_Z_plus. change (inject_Z 1) with 1%Q.
    split; nra. }
  destruct t as [tx ty]. unfold getTileByCoord64; cbn [tile_x tile_y pos_x pos_y] in *.
  f_equal; by apply Hcell.
Qed.

Lemma getTileByCoord64_cell_witness :
  getTileByCoord64 4 (mkPoint 170 500) = mkTile 3 1.
Proof.
  apply (getTileByCoord64_cell 4 (mkPoint 170 500) (mkTile 3 1));
    first [cbn; lia | discriminate].
Defined.

(** On the edge of a cell the tile may be the one before: with 58 columns,
    x = 320 is the exact left edge of column 29 and maps to column 28. *)
Lemma edge_maps_to_previous_tile :
  (inject_Z 29 * (640 / 58) == 320)%Q /\
  tile_y (getTileByCoord64 58 (mkPoint 320 0)) = 28.
Proof. split; vm_compute; reflexivity. Qed.

(** ** Pointer positions beyond the surface, in doubles *)

(** [searchPath] throws on the read of a row the grid has not, before the
    search is consulted. *)
Lemma searchPath_row_outside (w : World) (g : Grid) (tile : Tile) :
  graph w = Some g ->
  tile_x tile < 0 \/ Z.of_nat (length g) <= tile_x tile ->
  searchPath (playerPos w) tile w = (Thrown, w).
Proof.
  intros Hg Hrow%js_index_outside.
  unfold searchPath. run. rewrite Hg. run.
  destruct (playerPos w) as [s|]; run; [|done].
  destruct (js_index g (tile_x s)); run; [|done].
  rewrite Hrow. run. done.
Qed.

(** [searchPath] reads [undefined] from a column the row has not, and hands
    it to the search as the goal. *)
Lemma searchPath_column_outside (w : World) (g : Grid)
    (pos tile : Tile) (startCell : GridNode) (endRow : list GridNode) :
  graph w = Some g ->
  playerPos w = Some pos ->
  grid_node g pos = Some startCell ->
  js_index g (tile_x tile) = Some endRow ->
  tile_y tile < 0 \/ Z.of_nat (length endRow) <= tile_y tile ->
  grid_node g tile = None /\
  searchPath (playerPos w) tile w =
    (match search w g (Some startCell) None with
     | Some p => Returned p
     | None => Thrown
     end,
     set_log (log w ++ [SearchCall g (Some startCell) None]) w).
Proof.
  intros Hg Hpos Hstart Hrow Hcol%js_index_outside.
  unfold grid_node in Hstart |- *.
  destruct (js_index g (tile_x pos)) as [srow|] eqn:Hsrow; [|done]. cbn in Hstart.
  rewrite Hrow. cbn. split; [done|].
  unfold searchPath. run. rewrite Hg. run. rewrite Hpos. run.
  rewrite Hsrow. run. rewrite Hrow. run. rewrite Hstart, Hcol.
  cbn [search set_log]. by destruct (search w g (Some startCell) None); run.
Qed.

Lemma floor64_beyond_surface (gridSize : nat) (q : Q) :
  (0 < gridSize)%nat ->
  (640 * (1 + (1 # 2251799813685248)) <= q)%Q ->
  Z.of_nat gridSize <= Qfloor (div64 q (cellSize64 gridSize)).
Proof.
  intros Hg Hq. destruct (cellSize64_bounds _ Hg) as (Hc & _ & Hc1).
  destruct (quotient64_bounds _ q Hc ltac:(lra)) as (Hd & Hd0 & _).
  unfold unit_roundoff in *.
  rewrite <- (Qfloor_Z (Z.of_nat gridSize)). apply Qfloor_resp_le. nra.
Qed.

(** X13.  In the arithmetic of doubles, a pointer position whose y is at
    least [640 * (1 + 2^-51)] maps to a row index the grid does not have
    (at least [gridSize]): [searchPath], called as the handlers call it,
    throws on the row read before the search is consulted and leaves the
    store as it is. *)
Theorem pointer_below_surface_throws (w : World) (g : Grid) (position : Point) :
  (0 < gridSize w)%nat ->
  graph w = Some g ->
  length g = gridSize w ->
  (640 * (1 + (1 # 2251799813685248)) <= pos_y position)%Q ->
  Z.of_nat (gridSize w) <= tile_x (getTileByCoord64 (gridSize w) position) /\
  searchPath (playerPos w) (getTileByCoord64 (gridSize w) position) w = (Thrown, w).
Proof.
  intros Hn Hg Hlen Hy.
  assert (Hrow : Z.of_nat (gridSize w) <= tile_x (getTileByCoord64 (gridSize w) position))
    by (by apply floor64_beyond_surface).
  split; [done|]. apply (searchPath_row_outside w g); [done|]. right. by rewrite Hlen.
Qed.

Lemma pointer_below_surface_throws_witness :
  Z.of_nat (gridSize idle_world)
    <= tile_x (getTileByCoord64 (gridSize idle_world) (mkPoint 100 700)) /\
  searchPath (playerPos idle_world)
    (getTileByCoord64 (gridSize idle_world) (mkPoint 100 700)) idle_world
    = (Thrown, idle_world).
Proof.
  apply (pointer_below_surface_throws idle_world (Graph [[0; 1; 0]; [0; 1; 0]; [0; 1; 0]])
           (mkPoint 100 700));
    [vm_compute; lia | reflexivity | reflexivity | discriminate].
Defined.

(** X14.  In the arithmetic of doubles, a pointer position whose y is from
    0 up to [640 * (1 - 2^-51)] and whose x is at least [640 * (1 + 2^-51)]
    maps to a row the grid has and a column it has not: with [playerPos] in
    range, [searchPath] does not throw on the reads but calls the search
    implementation with the player's node and [undefined] as the goal. *)
Theorem pointer_right_of_surface_passes_undefined (w : World) (g : Grid) (pos : Tile)
    (position : Point) :
  (0 < gridSize w)%nat ->
  graph w = Some g ->
  square (gridSize w) g ->
  playerPos w = Some pos ->
  0 <= tile_x pos < Z.of_nat (gridSize w) ->
  0 <= tile_y pos < Z.of_nat (gridSize w) ->
  (0 <= pos_y position)%Q ->
  (pos_y position <= 640 * (1 - (1 # 2251799813685248)))%Q ->
  (640 * (1 + (1 # 2251799813685248)) <= pos_x position)%Q ->
  exists startCell,
    grid_node g pos = Some startCell /\
    grid_node g (getTileByCoord64 (gridSize w) position) = None /\
    searchPath (playerPos w) (getTileByCoord64 (gridSize w) position) w =
      (match search w g (Some startCell) None with
       | Some p => Returned p
       | None => Thrown
       end,
       set_log (log w ++ [SearchCall g (Some startCell) None]) w).
Proof.
  intros Hn Hg Hsq Hpos Hpx Hpy Hy0 Hy1 Hx.
  destruct (grid_node_in_range _ g pos Hsq Hpx Hpy) as (srow & sc & _ & _ & Hsn).
  pose proof (floor64_cell_range _ _ Hn Hy0 Hy1) as Hrow.
  pose proof (floor64_beyond_surface _ _ Hn Hx) as Hcol.
  destruct (js_index_in_range g (tile_x (getTileByCoord64 (gridSize w) position)))
    as [erow Herow].
  { destruct Hsq as [-> _]. exact Hrow. }
  assert (Hr : length erow = gridSize w).
  { destruct Hsq as [_ Hrows]. apply Hrows. unfold js_index in Herow.
    destruct (decide _); [|done]. by eapply list_elem_of_lookup_2. }
  exists sc. split; [done|].
  apply (searchPath_column_outside w g pos _ sc erow); [done..|].
  right. rewrite Hr. exact Hcol.
Qed.

Lemma pointer_right_of_surface_passes_undefined_witness :
  exists startCell,
    grid_node (Graph [[0; 1; 0]; [0; 1; 0]; [0; 1; 0]]) (mkTile 0 1) = Some startCell /\
    grid_node (Graph [[0; 1; 0]; [0; 1; 0]; [0; 1; 0]])
      (getTileByCoord64 (gridSize idle_world) (mkPoint 700 100)) = None /\
    searchPath (playerPos idle_world)
        (getTileByCoord64 (gridSize idle_world) (mkPoint 700 100)) idle_world =
      (match search idle_world (Graph [[0; 1; 0]; [0; 1; 0]; [0; 1; 0]])
               (Some startCell) None with
       | Some p => Returned p
       | None => Thrown
       end,
       set_log (log idle_world ++
                [SearchCall (Graph [[0; 1; 0]; [0; 1; 0]; [0; 1; 0]])
                   (Some startCell) None]) idle_world).
Proof.
  apply (pointer_right_of_surface_passes_undefined idle_world
           (Graph [[0; 1; 0]; [0; 1; 0]; [0; 1; 0]]) (mkTile 0 1) (mkPoint 700 100)).
  - vm_compute. lia.
  - reflexivity.
  - split; [reflexivity|]. intros row Hrow. vm_compute in Hrow.
    repeat (apply elem_of_cons in Hrow as [-> | Hrow]; [reflexivity|]).
    by apply elem_of_nil in Hrow.
  - reflexivity.
  - vm_compute. split; [discriminate|reflexivity].
  - vm_compute. split; [discriminate|reflexivity].
  - discriminate.
  - discriminate.
  - discriminate.
Defined.

(** At 640 itself the rounding decides: with 29 rows the quotient rounds
    below 29 and the row is the last of the grid. *)
Lemma surface_edge_maps_inside :
  tile_x (getTileByCoord64 29 (mkPoint 0 640)) = 28.
Proof. vm_compute. reflexivity. Qed.
